(** * The Robot figure of the web-graphics scene

    A shallow embedding of the [Robot] class (a THREE.Object3D subclass that
    assembles an R2D2-like figure and guards its joints and its vitality),
    followed by the properties of its construction, its motion setters and
    its energy and points bookkeeping.

    Numbers.  A JavaScript number is an IEEE double.  The embedding takes the
    finite ones at their exact rational value ([Q]) and computes without
    rounding: a decimal literal denotes its decimal value, comparisons are
    the exact ones; NaN, the infinities and arguments that are not numbers
    are outside the model.  [Binary64] repeats the arithmetic of the guards
    and of the life fields on doubles, to run the concrete cases there too.

    Objects.  Every [new THREE.Mesh(...)] allocates a scene node.  The figure
    keeps references to some of them ([this.head], [this.leftFemur], ...)
    while their parents keep the same references in their child lists, and
    the setters write through the figure's references.  The embedding has a
    heap of nodes addressed by index, so both paths reach the same node. *)

From Stdlib Require Import QArith Qround Lqa String Floats.
From stdpp Require Import base option list.

Local Open Scope Q_scope.

(** ** Numbers *)

(** [a > b], [a < b], [a <= b] and [a >= b] on finite numbers. *)
Definition Qgtb (a b : Q) : bool := negb (Qle_bool a b).
Definition Qltb (a b : Q) : bool := negb (Qle_bool b a).
Definition Qleb (a b : Q) : bool := Qle_bool a b.
Definition Qgeb (a b : Q) : bool := Qle_bool b a.

(** [Math.PI] is the double 0x1.921fb54442d18p+1, here as that rational. *)
Definition Math_PI : Q := 884279719003555 # 281474976710656.

(** Converts angles in degrees to angles in radians. *)
Definition degToRad (degrees : Q) : Q := degrees * Math_PI / 180.

(** The guards and the life fields on doubles.  A decimal literal denotes
    the nearest double there, as it does in JavaScript. *)
#[local] Set Warnings "-inexact-float".

Module Binary64.

Local Open Scope float_scope.

(** The part heights of the constructor. *)
Definition legHeight (robotHeight : float) : float := robotHeight * 0.7619.
Definition headRadius (robotHeight : float) : float := robotHeight * 0.1428.

(** The guard of the three setters. *)
Definition limit (MAX MIN v : float) : float :=
  if MAX <? v then MAX else if v <? MIN then MIN else v.

(** The life methods on the pair of [currentEnergy] and [isDead], and on
    [currentPoints] with [isDead]. *)
Definition substractEnergy (damage : float) (s : float * bool) : float * bool :=
  let (currentEnergy, isDead) := s in
  if negb isDead then
    let currentEnergy := currentEnergy - damage in
    if currentEnergy <=? 0 then (currentEnergy, true)
    else (currentEnergy, isDead)
  else s.

Definition addEnergy (energy : float) (s : float * bool) : float * bool :=
  let (currentEnergy, isDead) := s in
  if negb isDead then
    (if 100 <? currentEnergy + energy then 100 else currentEnergy + energy,
     isDead)
  else s.

Definition addPoints (points : float) (s : float * bool) : float * bool :=
  let (currentPoints, isDead) := s in
  if negb isDead then (currentPoints + points, isDead) else s.

End Binary64.

(** ** The part of the scene-graph library the figure uses *)

Module THREE.

(** A reference to a scene node: its index in the heap. *)
Definition ref : Type := nat.

Record Vector3 : Type := vec3 { x : Q; y : Q; z : Q }.

Inductive Texture : Type :=
| TextureLoader_load (url : string).

Inductive Material : Type :=
| MeshPhongMaterial (map : Texture)
| GivenMaterial (id : nat).

(** Geometries by the arguments their constructors receive; [RotatedX]
    records [geometry.applyMatrix(new Matrix4().makeRotationX(theta))]. *)
Inductive Geometry : Type :=
| CylinderGeometry (radiusTop radiusBottom height : Q)
                   (radialSegments : nat) (heightSegments : option nat)
| SphereGeometry (radius : Q) (widthSegments heightSegments : nat)
| BoxGeometry (width height depth : Q)
| RotatedX (theta : Q) (g : Geometry).

(** What a node is.  The optics of the light and of the camera (target
    link, shadow map, aspect ratio, the orientation [lookAt] computes)
    stay with the renderer. *)
Inductive Kind : Type :=
| Group
| Mesh (geometry : Geometry) (material : Material)
| SpotLight (intensity distance angle penumbra : Q)
| PerspectiveCamera (fov near far : Q).

(** A node: local position, rotation (Euler angles) and scale, the shadow
    flag, and the references to its children in insertion order. *)
Record Object3D : Type := {
  kind : Kind;
  position : Vector3;
  rotation : Vector3;
  scale : Vector3;
  castShadow : bool;
  children : list ref
}.

(** A fresh node: at the origin, unrotated, unscaled, no children. *)
Definition new_Object3D (k : Kind) : Object3D :=
  {| kind := k;
     position := vec3 0 0 0;
     rotation := vec3 0 0 0;
     scale := vec3 1 1 1;
     castShadow := false;
     children := [] |}.

Definition set_x (v : Q) (p : Vector3) : Vector3 := vec3 v (y p) (z p).
Definition set_y (v : Q) (p : Vector3) : Vector3 := vec3 (x p) v (z p).
Definition set_z (v : Q) (p : Vector3) : Vector3 := vec3 (x p) (y p) v.

Definition with_kind (f : Kind → Kind) (o : Object3D) : Object3D :=
  {| kind := f (kind o); position := position o; rotation := rotation o;
     scale := scale o; castShadow := castShadow o; children := children o |}.
Definition with_position (f : Vector3 → Vector3) (o : Object3D) : Object3D :=
  {| kind := kind o; position := f (position o); rotation := rotation o;
     scale := scale o; castShadow := castShadow o; children := children o |}.
Definition with_rotation (f : Vector3 → Vector3) (o : Object3D) : Object3D :=
  {| kind := kind o; position := position o; rotation := f (rotation o);
     scale := scale o; castShadow := castShadow o; children := children o |}.
Definition with_scale (f : Vector3 → Vector3) (o : Object3D) : Object3D :=
  {| kind := kind o; position := position o; rotation := rotation o;
     scale := f (scale o); castShadow := castShadow o; children := children o |}.
Definition with_castShadow (b : bool) (o : Object3D) : Object3D :=
  {| kind := kind o; position := position o; rotation := rotation o;
     scale := scale o; castShadow := b; children := children o |}.

(** [o.add(c)]: [c] becomes the last child of [o]. *)
Definition add (c : ref) (o : Object3D) : Object3D :=
  {| kind := kind o; position := position o; rotation := rotation o;
     scale := scale o; castShadow := castShadow o;
     children := children o ++ [c] |}.

(** [o.translateX(d)] and [o.translateY(d)] move along the node's own
    axes; the figure calls them on a mesh it has not rotated, whose axes
    are the parent's. *)
Definition translateX (d : Q) : Object3D → Object3D :=
  with_position (λ p, set_x (x p + d) p).
Definition translateY (d : Q) : Object3D → Object3D :=
  with_position (λ p, set_y (y p + d) p).

(** [mesh.geometry.applyMatrix(new THREE.Matrix4().makeRotationX(theta))]. *)
Definition geometry_applyRotationX (theta : Q) : Object3D → Object3D :=
  with_kind (λ k, match k with
                  | Mesh g m => Mesh (RotatedX theta g) m
                  | _ => k
                  end).

End THREE.

Import THREE.

(** ** The figure's own fields *)

(** The constructor's argument; an absent property reads [undefined]. *)
Record Parameters : Type := {
  p_robotHeight : option Q;
  p_robotWidth : option Q;
  p_materialBody : option Material;
  p_materialShoulder : option Material;
  p_materialFoot : option Material;
  p_materialHead : option Material;
  p_materialFemur : option Material
}.

(** Fields assigned once, at the top of the constructor. *)
Record Properties : Type := {
  metalTexture : Texture;
  robotHeight : Q;
  robotWidth : Q;
  materialBody : Material;
  materialShoulder : Material;
  materialFoot : Material;
  materialHead : Material;
  materialFemur : Material;
  legHeight : Q;
  bodyHeight : Q;
  bodyWidth : Q;
  headRadius : Q;
  MAX_ROBOT_ENERGY : Q;
  MAX_HEAD_ANGLE : Q;
  MIN_HEAD_ANGLE : Q;
  MAX_BODY_ANGLE : Q;
  MIN_BODY_ANGLE : Q;
  MAX_LEG_STRETCH : Q;
  MIN_LEG_STRETCH : Q
}.

(** Robot life properties. *)
Record Life : Type := {
  currentEnergy : Q;
  currentPoints : Q;
  currentRotation : Q;
  isDead : bool
}.

(** Objects that compose the robot; a slot reads [undefined] until the
    factory that fills it has run.  [own] is the child list the figure has
    as a scene node itself. *)
Record Parts : Type := {
  rightFoot : option ref;
  leftFoot : option ref;
  rightFemur : option ref;
  leftFemur : option ref;
  rightShoulder : option ref;
  leftShoulder : option ref;
  body : option ref;
  head : option ref;
  headLight : option ref;
  target : option ref;
  eyeCamera : option ref;
  own : list ref
}.

Record Robot : Type := {
  props : Properties;
  life : Life;
  parts : Parts
}.

Inductive Slot : Type :=
| RightFoot | LeftFoot | RightFemur | LeftFemur | RightShoulder | LeftShoulder
| Body | Head | HeadLight | Target | EyeCamera.

(** [this.<slot> = r]. *)
Definition assign (s : Slot) (r : ref) (p : Parts) : Parts :=
  {| rightFoot := match s with RightFoot => Some r | _ => rightFoot p end;
     leftFoot := match s with LeftFoot => Some r | _ => leftFoot p end;
     rightFemur := match s with RightFemur => Some r | _ => rightFemur p end;
     leftFemur := match s with LeftFemur => Some r | _ => leftFemur p end;
     rightShoulder := match s with RightShoulder => Some r | _ => rightShoulder p end;
     leftShoulder := match s with LeftShoulder => Some r | _ => leftShoulder p end;
     body := match s with Body => Some r | _ => body p end;
     head := match s with Head => Some r | _ => head p end;
     headLight := match s with HeadLight => Some r | _ => headLight p end;
     target := match s with Target => Some r | _ => target p end;
     eyeCamera := match s with EyeCamera => Some r | _ => eyeCamera p end;
     own := own p |}.

(** [this.add(r)]. *)
Definition add_own (r : ref) (p : Parts) : Parts :=
  {| rightFoot := rightFoot p; leftFoot := leftFoot p;
     rightFemur := rightFemur p; leftFemur := leftFemur p;
     rightShoulder := rightShoulder p; leftShoulder := leftShoulder p;
     body := body p; head := head p; headLight := headLight p;
     target := target p; eyeCamera := eyeCamera p;
     own := own p ++ [r] |}.

Definition with_parts (f : Parts → Parts) (t : Robot) : Robot :=
  {| props := props t; life := life t; parts := f (parts t) |}.
Definition with_life (f : Life → Life) (t : Robot) : Robot :=
  {| props := props t; life := f (life t); parts := parts t |}.

Definition set_currentEnergy (e : Q) (l : Life) : Life :=
  {| currentEnergy := e; currentPoints := currentPoints l;
     currentRotation := currentRotation l; isDead := isDead l |}.
Definition set_currentPoints (n : Q) (l : Life) : Life :=
  {| currentEnergy := currentEnergy l; currentPoints := n;
     currentRotation := currentRotation l; isDead := isDead l |}.
Definition set_isDead (b : bool) (l : Life) : Life :=
  {| currentEnergy := currentEnergy l; currentPoints := currentPoints l;
     currentRotation := currentRotation l; isDead := b |}.

(** ** The world a method runs in, and the method monad *)

Record World : Type := {
  heap : list Object3D;
  this : Robot
}.

(** A method either returns a value and the world it leaves, or throws
    (reading a property of [undefined]). *)
Definition M (A : Type) : Type := World → option (A * World).

#[global] Instance M_ret : MRet M := λ A a w, Some (a, w).
#[global] Instance M_bind : MBind M := λ A B f m w,
  match m w with
  | Some (a, w') => f a w'
  | None => None
  end.

(** The figure's fixed fields, its life fields and its slots. *)
Definition prop {A : Type} (f : Properties → A) : M A :=
  λ w, Some (f (props (this w)), w).
Definition vital {A : Type} (f : Life → A) : M A :=
  λ w, Some (f (life (this w)), w).
Definition slot (f : Parts → option ref) : M ref :=
  λ w, match f (parts (this w)) with
       | Some r => Some (r, w)
       | None => None
       end.

Definition modify_this (f : Robot → Robot) : M unit :=
  λ w, Some (tt, {| heap := heap w; this := f (this w) |}).

(** [new THREE.Xxx(...)]: the node goes to a fresh heap cell. *)
Definition new (k : Kind) : M ref :=
  λ w, Some (length (heap w),
             {| heap := heap w ++ [new_Object3D k]; this := this w |}).

(** A write through a reference.  References come from [new] only, so the
    cell exists; the embedding is stuck otherwise. *)
Definition update (r : ref) (f : Object3D → Object3D) : M unit :=
  λ w, match heap w !! r with
       | Some o => Some (tt, {| heap := <[r := f o]> (heap w); this := this w |})
       | None => None
       end.

(** ** Construction *)

Section Factory.

Let precision : nat := 30%nat.   (* number of radial segments *)

(** Creates the eye of the robot. *)
Definition createEye : M ref :=
  headRadius ← prop headRadius;
  metalTexture ← prop metalTexture;
  let eyeRadius := headRadius * 0.25 in
  let eyeHeight := eyeRadius / 2 in
  let eyeGeometry :=
    CylinderGeometry eyeRadius eyeRadius eyeHeight precision (Some precision) in
  eye ← new (Mesh eyeGeometry (MeshPhongMaterial metalTexture));
  update eye (with_castShadow true);;
  update eye (with_position (set_y (headRadius / 2)));;
  update eye (geometry_applyRotationX (Math_PI / 3));;
  update eye (with_position (set_z (headRadius * 0.85)));;
  mret eye.

(** Creates the head of the robot. *)
Definition createHead : M ref :=
  headRadius ← prop headRadius;
  bodyHeight ← prop bodyHeight;
  materialHead ← prop materialHead;
  let headGeometry := SphereGeometry headRadius precision precision in
  head ← new (Mesh headGeometry materialHead);
  update head (with_castShadow true);;
  update head (with_position (set_y (bodyHeight / 2)));;
  eye ← createEye;
  update head (add eye);;
  modify_this (with_parts (assign Head head));;
  mret head.

(** Creates the body of the robot. *)
Definition createBody : M ref :=
  bodyWidth ← prop bodyWidth;
  bodyHeight ← prop bodyHeight;
  legHeight ← prop legHeight;
  headRadius ← prop headRadius;
  materialBody ← prop materialBody;
  let bodyRadius := bodyWidth * 0.5 in
  let bodyGeometry :=
    CylinderGeometry bodyRadius bodyRadius bodyHeight precision None in
  body ← new (Mesh bodyGeometry materialBody);
  update body (translateX ((- bodyRadius) - (legHeight * 0.125 / 2)));;
  update body (translateY (- (bodyHeight / 2) + (headRadius / 2)
                           + (0.25 * legHeight)));;
  update body (with_castShadow true);;
  modify_this (with_parts (assign Body body));;
  head ← createHead;
  update body (add head);;
  mret body.

(** Creates a leg of the robot.
    Side: positive number or zero for the left one, negative for the
    right one. *)
Definition createFemur (side : Q) : M ref :=
  legHeight ← prop legHeight;
  materialFemur ← prop materialFemur;
  let femurLength := legHeight * 0.75 in
  let femurRadius := legHeight * 0.09375 * 0.5 in
  let legGeometry :=
    CylinderGeometry femurRadius femurRadius femurLength precision None in
  femur ← new (Mesh legGeometry materialFemur);
  update femur (with_castShadow true);;
  (if Qgeb side 0
   then modify_this (with_parts (assign LeftFemur femur))
   else modify_this (with_parts (assign RightFemur femur)));;
  mret femur.

(** Creates a shoulder of the robot; the left one carries the body. *)
Definition createShoulder (side : Q) : M ref :=
  legHeight ← prop legHeight;
  materialShoulder ← prop materialShoulder;
  let shoulderDimensions := legHeight * 0.125 in
  let shoulderGeometry :=
    BoxGeometry shoulderDimensions shoulderDimensions shoulderDimensions in
  shoulder ← new (Mesh shoulderGeometry materialShoulder);
  update shoulder (with_castShadow true);;
  update shoulder (with_position
                     (set_y ((legHeight * 0.75 / 2) + (shoulderDimensions / 2))));;
  (if Qgeb side 0
   then modify_this (with_parts (assign LeftShoulder shoulder));;
        body ← createBody;
        update shoulder (add body)
   else modify_this (with_parts (assign RightShoulder shoulder)));;
  mret shoulder.

(** Creates a foot of the robot, with its femur and its shoulder. *)
Definition createFoot (side : Q) : M ref :=
  let side : Q := if Qgeb side 0 then 1 else -1 in
  legHeight ← prop legHeight;
  bodyWidth ← prop bodyWidth;
  materialFoot ← prop materialFoot;
  let footHeight := legHeight * 0.125 in
  let radiusTop := footHeight / 2 in
  let radiusBottom := legHeight * 0.1875 / 2 in
  let footGeometry :=
    CylinderGeometry radiusTop radiusBottom footHeight precision None in
  foot ← new (Mesh footGeometry materialFoot);
  update foot (with_position (set_y (legHeight * 0.125 / 2)));;
  update foot (with_position
                 (set_x (side * ((bodyWidth / 2) + (legHeight * 0.125 / 2)))));;
  update foot (with_castShadow true);;
  femur ← createFemur side;
  update foot (add femur);;
  shoulder ← createShoulder side;
  update foot (add shoulder);;
  mret foot.

End Factory.

(** The assignments at the top of the constructor: defaults for absent
    parameters, the part heights, the life and movement properties.  No
    part exists yet. *)
Definition initial_fields (parameters : Parameters) : Robot :=
  let metalTexture := TextureLoader_load "../img/metal.jpg" in
  let robotHeight := default 21 (p_robotHeight parameters) in
  let robotWidth := default 12.5 (p_robotWidth parameters) in
  let legHeight := robotHeight * 0.7619 in
  let bodyHeight := robotHeight * 0.6667 in
  let bodyWidth := bodyHeight * 0.5 in
  let headRadius := robotHeight * 0.1428 in
  let MAX_ROBOT_ENERGY : Q := 100 in
  let currentEnergy := MAX_ROBOT_ENERGY in
  {| props :=
       {| metalTexture := metalTexture;
          robotHeight := robotHeight;
          robotWidth := robotWidth;
          materialBody :=
            default (MeshPhongMaterial metalTexture) (p_materialBody parameters);
          materialShoulder :=
            default (MeshPhongMaterial metalTexture) (p_materialShoulder parameters);
          materialFoot :=
            default (MeshPhongMaterial metalTexture) (p_materialFoot parameters);
          materialHead :=
            default (MeshPhongMaterial metalTexture) (p_materialHead parameters);
          materialFemur :=
            default (MeshPhongMaterial metalTexture) (p_materialFemur parameters);
          legHeight := legHeight;
          bodyHeight := bodyHeight;
          bodyWidth := bodyWidth;
          headRadius := headRadius;
          MAX_ROBOT_ENERGY := MAX_ROBOT_ENERGY;
          MAX_HEAD_ANGLE := 80;
          MIN_HEAD_ANGLE := -80;
          MAX_BODY_ANGLE := 30;
          MIN_BODY_ANGLE := -45;
          MAX_LEG_STRETCH := 1.2;
          MIN_LEG_STRETCH := 1 |};
     life :=
       {| currentEnergy := currentEnergy;
          currentPoints := 0;
          currentRotation := 0;
          isDead := if Qltb currentEnergy 0 then true else false |};
     parts :=
       {| rightFoot := None; leftFoot := None;
          rightFemur := None; leftFemur := None;
          rightShoulder := None; leftShoulder := None;
          body := None; head := None;
          headLight := None; target := None; eyeCamera := None;
          own := [] |} |}.

(** The rest of the constructor: the two feet, the head light with its
    target, the eye camera, each added to the figure. *)
Definition assemble : M unit :=
  robotHeight ← prop robotHeight;
  rightFoot ← createFoot (-1);
  modify_this (with_parts (assign RightFoot rightFoot));;
  leftFoot ← createFoot 1;
  modify_this (with_parts (assign LeftFoot leftFoot));;
  modify_this (with_parts (add_own rightFoot));;
  modify_this (with_parts (add_own leftFoot));;
  headLight ← new (SpotLight 3 100 (degToRad 30) 0.5);
  modify_this (with_parts (assign HeadLight headLight));;
  update headLight (with_position (λ _, vec3 0 (robotHeight + 1) 7));;
  update headLight (with_castShadow true);;
  target ← new Group;
  modify_this (with_parts (assign Target target));;
  update target (with_position (λ _, vec3 0 0 25));;
  modify_this (with_parts (add_own headLight));;
  modify_this (with_parts (add_own target));;
  eyeCamera ← new (PerspectiveCamera 45 0.1 1000);
  modify_this (with_parts (assign EyeCamera eyeCamera));;
  update eyeCamera (with_position (λ _, vec3 0 (robotHeight - 1) 3));;
  modify_this (with_parts (add_own eyeCamera));;
  mret tt.

(** [new Robot(parameters)]. *)
Definition new_Robot (parameters : Parameters) : option World :=
  snd <$> assemble {| heap := []; this := initial_fields parameters |}.

(** [new Robot({})]. *)
Definition no_parameters : Parameters :=
  {| p_robotHeight := None; p_robotWidth := None;
     p_materialBody := None; p_materialShoulder := None;
     p_materialFoot := None; p_materialHead := None;
     p_materialFemur := None |}.

(** ** Set methods *)

(** Sets the head angle. *)
Definition setHeadRotation (headRotation : Q) : M unit :=
  dead ← vital isDead;
  if negb dead then
    MAX_HEAD_ANGLE ← prop MAX_HEAD_ANGLE;
    MIN_HEAD_ANGLE ← prop MIN_HEAD_ANGLE;
    let rotation := headRotation in
    let rotation :=
      if Qgtb rotation MAX_HEAD_ANGLE then MAX_HEAD_ANGLE
      else if Qltb rotation MIN_HEAD_ANGLE then MIN_HEAD_ANGLE
      else rotation in
    let rotation := degToRad rotation in
    head ← slot head;
    update head (with_rotation (set_y rotation))
  else mret tt.

(** Sets the body angle. *)
Definition setBodyRotation (bodyRotation : Q) : M unit :=
  dead ← vital isDead;
  if negb dead then
    MAX_BODY_ANGLE ← prop MAX_BODY_ANGLE;
    MIN_BODY_ANGLE ← prop MIN_BODY_ANGLE;
    let rotation := bodyRotation in
    let rotation :=
      if Qgtb rotation MAX_BODY_ANGLE then MAX_BODY_ANGLE
      else if Qltb rotation MIN_BODY_ANGLE then MIN_BODY_ANGLE
      else rotation in
    let rotation := degToRad rotation in
    body ← slot body;
    update body (with_rotation (set_x rotation))
  else mret tt.

(** Sets the leg length. *)
Definition setLegsScale (extraLength : Q) : M unit :=
  dead ← vital isDead;
  if negb dead then
    MAX_LEG_STRETCH ← prop MAX_LEG_STRETCH;
    MIN_LEG_STRETCH ← prop MIN_LEG_STRETCH;
    legHeight ← prop legHeight;
    let stretch := extraLength in
    let stretch :=
      if Qgtb stretch MAX_LEG_STRETCH then MAX_LEG_STRETCH
      else if Qltb stretch MIN_LEG_STRETCH then MIN_LEG_STRETCH
      else stretch in
    rightFemur ← slot rightFemur;
    update rightFemur (with_scale (λ _, vec3 1 stretch 1));;
    update rightFemur (with_position (set_y (legHeight * 0.75 / 2)));;
    leftFemur ← slot leftFemur;
    update leftFemur (with_scale (λ _, vec3 1 stretch 1));;
    update leftFemur (with_position (set_y (legHeight * 0.75 / 2)));;
    rightShoulder ← slot rightShoulder;
    update rightShoulder (with_position (set_y ((legHeight * 0.75) * stretch)));;
    leftShoulder ← slot leftShoulder;
    update leftShoulder (with_position (set_y ((legHeight * 0.75) * stretch)))
  else mret tt.

(** Subtracts from currentEnergy the indicated amount. *)
Definition substractEnergy (damage : Q) : M unit :=
  dead ← vital isDead;
  if negb dead then
    energy ← vital currentEnergy;
    modify_this (with_life (set_currentEnergy (energy - damage)));;
    energy ← vital currentEnergy;
    if Qleb energy 0 then modify_this (with_life (set_isDead true))
    else mret tt
  else mret tt.

(** Adds energy to the robot. *)
Definition addEnergy (energy : Q) : M unit :=
  dead ← vital isDead;
  if negb dead then
    currentEnergy ← vital currentEnergy;
    MAX_ROBOT_ENERGY ← prop MAX_ROBOT_ENERGY;
    modify_this (with_life (set_currentEnergy
      (if Qgtb (currentEnergy + energy) MAX_ROBOT_ENERGY
       then MAX_ROBOT_ENERGY
       else currentEnergy + energy)))
  else mret tt.

(** Adds the indicated amount of points. *)
Definition addPoints (points : Q) : M unit :=
  dead ← vital isDead;
  if negb dead then
    currentPoints ← vital currentPoints;
    modify_this (with_life (set_currentPoints (currentPoints + points)))
  else mret tt.

(** ** Histories of calls *)

(** A call of one of the public methods. *)
Inductive Call : Type :=
| SetHeadRotation (headRotation : Q)
| SetBodyRotation (bodyRotation : Q)
| SetLegsScale (extraLength : Q)
| SubstractEnergy (damage : Q)
| AddEnergy (energy : Q)
| AddPoints (points : Q).

Definition call (c : Call) : M unit :=
  match c with
  | SetHeadRotation q => setHeadRotation q
  | SetBodyRotation q => setBodyRotation q
  | SetLegsScale q => setLegsScale q
  | SubstractEnergy q => substractEnergy q
  | AddEnergy q => addEnergy q
  | AddPoints q => addPoints q
  end.

(** The world after a call, if it returns. *)
Definition exec (c : Call) (w : World) : option World := snd <$> call c w.

(** The world after a sequence of calls, first call first. *)
Fixpoint run (cs : list Call) (w : World) : option World :=
  match cs with
  | [] => Some w
  | c :: cs => w' ← exec c w; run cs w'
  end.

(** The worlds a program can see: a new figure, then any calls. *)
Inductive reachable : World → Prop :=
| reachable_new parameters w :
    new_Robot parameters = Some w → reachable w
| reachable_call c w w' :
    reachable w → exec c w = Some w' → reachable w'.

(** ** The scene *)

(** The class [TheScene]: lights, a camera with its controls, the axes and
    the model, under a scene root.  [GameField], [Sky] and [Platform] are
    classes of other files; a node of theirs is kept by the arguments of its
    constructor.  The shadow map of the spot light, the projection matrix of
    the camera and the renderer are the library's. *)
Module TheScene.

Inductive Material : Type :=
| MeshPhongMaterial (map : Texture)
| MeshBasicMaterial (map : Texture).

Inductive Kind : Type :=
| AmbientLight (color : N) (intensity : Q)
| SpotLight (color : N) (intensity : Q)
| PerspectiveCamera (fov aspect near far : Q)
| AxisHelper (size : Q)
| Object3D
| GameField (a b : Q) (floor : Material) (c d : Q) (walls : Material)
| Sky (background : Material)
| Platform.

(** A node of the scene; a fresh one is at the origin, visible, casts no
    shadow and has no children. *)
Record Node : Type := {
  kind : Kind;
  position : Vector3;
  lookAt : option Vector3;
  visible : bool;
  castShadow : bool;
  children : list ref
}.

Definition new_Node (k : Kind) : Node :=
  {| kind := k; position := vec3 0 0 0; lookAt := None;
     visible := true; castShadow := false; children := [] |}.

Definition set_position (p : Vector3) (o : Node) : Node :=
  {| kind := kind o; position := p; lookAt := lookAt o;
     visible := visible o; castShadow := castShadow o;
     children := children o |}.
Definition set_lookAt (p : Vector3) (o : Node) : Node :=
  {| kind := kind o; position := position o; lookAt := Some p;
     visible := visible o; castShadow := castShadow o;
     children := children o |}.
Definition set_visible (b : bool) (o : Node) : Node :=
  {| kind := kind o; position := position o; lookAt := lookAt o;
     visible := b; castShadow := castShadow o; children := children o |}.
Definition set_castShadow (b : bool) (o : Node) : Node :=
  {| kind := kind o; position := position o; lookAt := lookAt o;
     visible := visible o; castShadow := b; children := children o |}.
Definition add (c : ref) (o : Node) : Node :=
  {| kind := kind o; position := position o; lookAt := lookAt o;
     visible := visible o; castShadow := castShadow o;
     children := children o ++ [c] |}.

(** [camera.aspect = a]. *)
Definition set_aspect (a : Q) (o : Node) : Node :=
  {| kind := match kind o with
             | PerspectiveCamera fov _ near far =>
                 PerspectiveCamera fov a near far
             | k => k
             end;
     position := position o; lookAt := lookAt o;
     visible := visible o; castShadow := castShadow o;
     children := children o |}.

Definition aspect (o : Node) : option Q :=
  match kind o with
  | PerspectiveCamera _ a _ _ => Some a
  | _ => None
  end.

(** The trackball controls of a camera. *)
Record Controls : Type := {
  object : ref;
  domElement : nat;
  rotateSpeed : Q;
  zoomSpeed : Q;
  panSpeed : Q;
  target : Vector3
}.

(** The fields of the scene; [null] until the constructor fills them.
    [own] is the child list of the scene root. *)
Record Fields : Type := {
  difficulty : Q;
  ambientLight : option ref;
  spotLight : option ref;
  camera : option ref;
  trackballControls : option Controls;
  platform : option ref;
  axis : option ref;
  model : option ref;
  gameField : option ref;
  sky : option ref;
  own : list ref
}.

Inductive Field : Type :=
| AmbientLightF | SpotLightF | CameraF | PlatformF | AxisF | ModelF
| GameFieldF | SkyF.

(** [this.<field> = r]. *)
Definition assign (f : Field) (r : ref) (t : Fields) : Fields :=
  {| difficulty := difficulty t;
     ambientLight := match f with AmbientLightF => Some r | _ => ambientLight t end;
     spotLight := match f with SpotLightF => Some r | _ => spotLight t end;
     camera := match f with CameraF => Some r | _ => camera t end;
     trackballControls := trackballControls t;
     platform := match f with PlatformF => Some r | _ => platform t end;
     axis := match f with AxisF => Some r | _ => axis t end;
     model := match f with ModelF => Some r | _ => model t end;
     gameField := match f with GameFieldF => Some r | _ => gameField t end;
     sky := match f with SkyF => Some r | _ => sky t end;
     own := own t |}.

Definition set_trackballControls (c : Controls) (t : Fields) : Fields :=
  {| difficulty := difficulty t; ambientLight := ambientLight t;
     spotLight := spotLight t; camera := camera t;
     trackballControls := Some c; platform := platform t; axis := axis t;
     model := model t; gameField := gameField t; sky := sky t;
     own := own t |}.

(** [this.add(r)]. *)
Definition add_own (r : ref) (t : Fields) : Fields :=
  {| difficulty := difficulty t; ambientLight := ambientLight t;
     spotLight := spotLight t; camera := camera t;
     trackballControls := trackballControls t; platform := platform t;
     axis := axis t; model := model t; gameField := gameField t;
     sky := sky t; own := own t ++ [r] |}.

Record State : Type := {
  nodes : list Node;
  this : Fields
}.

(** A method of the scene returns a value and a state, or throws. *)
Definition Method (A : Type) : Type := State → option (A * State).

#[global] Instance Method_ret : MRet Method := λ A a s, Some (a, s).
#[global] Instance Method_bind : MBind Method := λ A B f m s,
  match m s with
  | Some (a, s') => f a s'
  | None => None
  end.

Definition field (f : Fields → option ref) : Method ref :=
  λ s, match f (this s) with
       | Some r => Some (r, s)
       | None => None
       end.

Definition modify_this (f : Fields → Fields) : Method unit :=
  λ s, Some (tt, {| nodes := nodes s; this := f (this s) |}).

Definition new (k : Kind) : Method ref :=
  λ s, Some (length (nodes s),
             {| nodes := nodes s ++ [new_Node k]; this := this s |}).

Definition update (r : ref) (f : Node → Node) : Method unit :=
  λ s, match nodes s !! r with
       | Some o => Some (tt, {| nodes := <[r := f o]> (nodes s); this := this s |})
       | None => None
       end.

(** The browser window and the GUI state [animate] receives.  A window of
    height zero has no finite aspect ratio and is outside the model. *)
Record Window : Type := { innerWidth : Q; innerHeight : Q }.
Record GUIControls : Type := { gui_axis : bool; gui_difficulty : Q }.

(** It creates the camera and adds it to the graph. *)
Definition createCamera (window : Window) (renderer : nat) : Method unit :=
  camera ← new (PerspectiveCamera 45 (innerWidth window / innerHeight window)
                                  0.1 1000);
  modify_this (assign CameraF camera);;
  update camera (set_position (vec3 (-300) 480 0));;
  let look := vec3 (-30) 0 0 in
  update camera (set_lookAt look);;
  modify_this (set_trackballControls
                 {| object := camera; domElement := renderer;
                    rotateSpeed := 5; zoomSpeed := -2; panSpeed := 0.5;
                    target := look |});;
  modify_this (add_own camera).

(** It creates lights and adds them to the graph. *)
Definition createLights : Method unit :=
  ambientLight ← new (AmbientLight 0xccddee 0.35);
  modify_this (assign AmbientLightF ambientLight);;
  modify_this (add_own ambientLight);;
  spotLight ← new (SpotLight 0xffffff 0.7);
  modify_this (assign SpotLightF spotLight);;
  update spotLight (set_position (vec3 (-300) 400 0));;
  update spotLight (set_castShadow true);;
  modify_this (add_own spotLight).

(** It creates the geometric model: gameField, sky, platform. *)
Definition createModel : Method ref :=
  model ← new Object3D;
  let floor_texture := TextureLoader_load "../img/floor.jpg" in
  let walls_texture := TextureLoader_load "../img/walls.jpg" in
  let sky_texture := TextureLoader_load "../img/mw.jpg" in
  gameField ← new (GameField 400 400 (MeshPhongMaterial floor_texture)
                             20 40 (MeshPhongMaterial walls_texture));
  modify_this (assign GameFieldF gameField);;
  sky ← new (Sky (MeshBasicMaterial sky_texture));
  modify_this (assign SkyF sky);;
  platform ← new Platform;
  modify_this (assign PlatformF platform);;
  update model (add gameField);;
  update model (add sky);;
  update model (add platform);;
  mret model.

(** The fields at the top of the constructor. *)
Definition initial_fields : Fields :=
  {| difficulty := 1;
     ambientLight := None; spotLight := None; camera := None;
     trackballControls := None; platform := None;
     axis := None; model := None; gameField := None; sky := None;
     own := [] |}.

Definition constructor (window : Window) (renderer : nat) : Method unit :=
  createLights;;
  createCamera window renderer;;
  axis ← new (AxisHelper 25);
  modify_this (assign AxisF axis);;
  modify_this (add_own axis);;
  model ← createModel;
  modify_this (assign ModelF model);;
  modify_this (add_own model).

(** [new TheScene(renderer)]. *)
Definition new_TheScene (window : Window) (renderer : nat) : option State :=
  snd <$> constructor window renderer {| nodes := []; this := initial_fields |}.

(** Sets the game difficulty: the floor goes to the parameter. *)
Definition setDifficulty (level : Q) : Method unit :=
  let level := inject_Z (Qfloor level) in
  mret tt.

(** It sets the robot position according to the GUI. *)
Definition animate (controls : GUIControls) : Method unit :=
  axis ← field axis;
  update axis (set_visible (gui_axis controls));;
  setDifficulty (gui_difficulty controls).

(** It returns the camera, and the camera controls. *)
Definition getCamera : Method ref := field camera.
Definition getCameraControls : Method Controls :=
  λ s, match trackballControls (this s) with
       | Some c => Some (c, s)
       | None => None
       end.

(** It updates the aspect ratio of the camera. *)
Definition setCameraAspect (anAspectRatio : Q) : Method unit :=
  camera ← field camera;
  update camera (set_aspect anAspectRatio).

(** Both cases of the switch break at once. *)
Definition movePlatform (action : Q) : Method unit := mret tt.

(** A call of one of the methods that can write. *)
Inductive Call : Type :=
| Animate (controls : GUIControls)
| SetCameraAspect (anAspectRatio : Q)
| MovePlatform (action : Q)
| SetDifficulty (level : Q).

Definition call (c : Call) : Method unit :=
  match c with
  | Animate controls => animate controls
  | SetCameraAspect a => setCameraAspect a
  | MovePlatform action => movePlatform action
  | SetDifficulty level => setDifficulty level
  end.

Fixpoint run (cs : list Call) (s : State) : option State :=
  match cs with
  | [] => Some s
  | c :: cs => s' ← snd <$> call c s; run cs s'
  end.

(** The axis flag of the last [animate] of a history, and the ratio of its
    last [setCameraAspect]; [d] when there is none. *)
Fixpoint last_axis (cs : list Call) (d : bool) : bool :=
  match cs with
  | [] => d
  | Animate controls :: cs => last_axis cs (gui_axis controls)
  | _ :: cs => last_axis cs d
  end.

Fixpoint last_aspect (cs : list Call) (d : Q) : Q :=
  match cs with
  | [] => d
  | SetCameraAspect a :: cs => last_aspect cs a
  | _ :: cs => last_aspect cs d
  end.

(** The node a field refers to. *)
Definition at_field (f : Fields → option ref) (s : State) : option Node :=
  r ← f (this s); nodes s !! r.

(** What the scene keeps after construction: the fields that refer to the
    camera and to the axes, eight nodes, a camera among them. *)
Definition scene_inv (s : State) : Prop :=
  camera (this s) = Some 2%nat ∧ axis (this s) = Some 3%nat
  ∧ length (nodes s) = 8%nat
  ∧ is_Some (at_field camera s ≫= aspect).

End TheScene.

(** ** What can be observed *)

(** The node a slot of the figure refers to. *)
Definition part (s : Parts → option ref) (w : World) : option Object3D :=
  r ← s (parts (this w)); heap w !! r.

Definition energy (w : World) : Q := currentEnergy (life (this w)).
Definition points (w : World) : Q := currentPoints (life (this w)).
Definition dead (w : World) : bool := isDead (life (this w)).

(** The slots and the child lists as the constructor leaves them. *)
Definition built_parts : Parts :=
  {| rightFoot := Some 0%nat; leftFoot := Some 3%nat;
     rightFemur := Some 1%nat; leftFemur := Some 4%nat;
     rightShoulder := Some 2%nat; leftShoulder := Some 5%nat;
     body := Some 6%nat; head := Some 7%nat;
     headLight := Some 9%nat; target := Some 10%nat; eyeCamera := Some 11%nat;
     own := [0; 3; 9; 10; 11]%nat |}.

Definition built_children : list (list ref) :=
  [[1; 2]; []; []; [4; 5]; []; [6]; [7]; [8]; []; []; []; []]%nat.

(** What every call preserves: the fields fixed by the constructor, the
    slots, and the shape of the scene graph. *)
Definition figure_inv (w : World) : Prop :=
  (∃ parameters, props (this w) = props (initial_fields parameters))
  ∧ parts (this w) = built_parts
  ∧ children <$> heap w = built_children.

(** The world [new Robot(parameters)] returns (the constructor does not
    throw, see [new_Robot_built]). *)
Definition built (parameters : Parameters) : World :=
  match new_Robot parameters with
  | Some w => w
  | None => {| heap := []; this := initial_fields parameters |}
  end.

(** ** Vocabulary of the properties *)

(** [c] is [v] limited to the interval from [lo] to [hi]: inside the
    interval, equal to the bound that [v] passes, equal to [v] otherwise. *)
Definition limited (lo hi v c : Q) : Prop :=
  (lo <= c ∧ c <= hi)
  ∧ (hi < v → c = hi) ∧ (v < lo → c = lo) ∧ (lo <= v ∧ v <= hi → c = v).

Definition motion_setter (c : Call) : bool :=
  match c with
  | SetHeadRotation _ | SetBodyRotation _ | SetLegsScale _ => true
  | _ => false
  end.

(** Calls whose damage amount, if any, is not negative. *)
Definition damage_nonneg (c : Call) : Prop :=
  match c with
  | SubstractEnergy damage => 0 <= damage
  | _ => True
  end.



(** Calls whose points amount, if any, is not negative. *)
Definition points_nonneg (c : Call) : Prop :=
  match c with
  | AddPoints amount => 0 <= amount
  | _ => True
  end.

(** A computation that leaves the figure's own fields alone. *)
Definition keeps_this {A : Type} (m : M A) : Prop :=
  ∀ w a w', m w = Some (a, w') → this w' = this w.

(** ** Observing the scene graph *)

Definition node (r : ref) (w : World) : option Object3D := heap w !! r.

(** The geometry a mesh was built with. *)
Definition geometry (o : Object3D) : option Geometry :=
  match kind o with
  | Mesh g _ => Some g
  | _ => None
  end.

(** The [k]-th child of a node. *)
Definition child (k : nat) (o : Object3D) (w : World) : option Object3D :=
  r ← children o !! k; heap w !! r.

(** The nodes of the heap, from index [i] on, that have [r] as a child. *)
Fixpoint holders (r : ref) (i : nat) (h : list Object3D) : list ref :=
  match h with
  | [] => []
  | o :: h =>
      if bool_decide (r ∈ children o)
      then i :: holders r (S i) h
      else holders r (S i) h
  end.

(** The parents of a node. *)
Definition parents (r : ref) (w : World) : list ref := holders r 0 (heap w).

(** ** Contracts of the factories *)

(** [createHead] in any world: a new head with a new eye as its only
    child, recorded in [this.head]. *)
Definition createHead_contract (w : World) : Prop :=
  ∃ hd e w',
    createHead w = Some (hd, w')
    ∧ heap w `prefix_of` heap w'
    ∧ node hd w = None
    ∧ head (parts (this w')) = Some hd
    ∧ children <$> node hd w' = Some [e]
    ∧ children <$> node e w' = Some [].

(** [createBody] in any world: a new body with a new head as its only
    child, both recorded. *)
Definition createBody_contract (w : World) : Prop :=
  ∃ b hd e w',
    createBody w = Some (b, w')
    ∧ heap w `prefix_of` heap w'
    ∧ node b w = None
    ∧ body (parts (this w')) = Some b
    ∧ head (parts (this w')) = Some hd
    ∧ children <$> node b w' = Some [hd]
    ∧ children <$> node hd w' = Some [e]
    ∧ children <$> node e w' = Some [].

(** [createFoot] in any world: a new foot with a new femur and a new
    shoulder as its children, recorded in the slots of the side; the body
    goes under the shoulder of a side that is not negative. *)
Definition createFoot_contract (side : Q) (w : World) : Prop :=
  ∃ foot femur shoulder w',
    createFoot side w = Some (foot, w')
    ∧ heap w `prefix_of` heap w'
    ∧ node foot w = None
    ∧ children <$> node foot w' = Some [femur; shoulder]
    ∧ children <$> node femur w' = Some []
    ∧ if Qgeb side 0
      then
        leftFemur (parts (this w')) = Some femur
        ∧ leftShoulder (parts (this w')) = Some shoulder
        ∧ rightFemur (parts (this w')) = rightFemur (parts (this w))
        ∧ rightShoulder (parts (this w')) = rightShoulder (parts (this w))
        ∧ ∃ b hd e,
            children <$> node shoulder w' = Some [b]
            ∧ body (parts (this w')) = Some b
            ∧ children <$> node b w' = Some [hd]
            ∧ head (parts (this w')) = Some hd
            ∧ children <$> node hd w' = Some [e]
            ∧ children <$> node e w' = Some []
      else
        rightFemur (parts (this w')) = Some femur
        ∧ rightShoulder (parts (this w')) = Some shoulder
        ∧ leftFemur (parts (this w')) = leftFemur (parts (this w))
        ∧ leftShoulder (parts (this w')) = leftShoulder (parts (this w))
        ∧ body (parts (this w')) = body (parts (this w))
        ∧ head (parts (this w')) = head (parts (this w))
        ∧ children <$> node shoulder w' = Some [].

(** ** Vocabulary of the further properties *)

(** Two calls of the same motion setter. *)
Definition same_setter (c1 c2 : Call) : bool :=
  match c1, c2 with
  | SetHeadRotation _, SetHeadRotation _
  | SetBodyRotation _, SetBodyRotation _
  | SetLegsScale _, SetLegsScale _ => true
  | _, _ => false
  end.

(** A computation that leaves component [g] of every scene node alone. *)
Definition keeps_field {A B : Type} (g : Object3D → B) (m : M A) : Prop :=
  ∀ w a w', m w = Some (a, w') → g <$> heap w' = g <$> heap w.

(** Every parent-to-child link of the scene graph: the figure's own child
    list, then the child list of each node. *)
Definition links (w : World) : list ref :=
  own (parts (this w)) ++ concat (children <$> heap w).

(** The figure before its parts exist: the fields of the top of the
    constructor, no scene node yet. *)
Definition unassembled (parameters : Parameters) : World :=
  {| heap := []; this := initial_fields parameters |}.

(** A child list that stays inside the nodes from [lo] up to [hi]. *)
Definition children_within (lo hi : nat) (o : Object3D) : Prop :=
  Forall (λ c, (lo <= c < hi)%nat) (children o).

(** A factory that, run in [w], returns the first of [n] nodes it appends to
    the heap, links them among themselves only, and leaves the fixed fields
    and the life fields of the figure. *)
Definition allocates (n : nat) (m : M ref) (w : World) : Prop :=
  ∃ nodes w',
    m w = Some (length (heap w), w')
    ∧ heap w' = heap w ++ nodes
    ∧ length nodes = n
    ∧ Forall (children_within (length (heap w)) (length (heap w'))) nodes
    ∧ props (this w') = props (this w)
    ∧ life (this w') = life (this w).

(** On doubles: a live state whose energy is NaN. *)
Definition nan_alive (s : float * bool) : Prop :=
  PrimFloat.is_nan (fst s) = true ∧ snd s = false.

(** The slots of the joints a call writes. *)
Definition written (c : Call) (p : Parts) : list (option ref) :=
  match c with
  | SetHeadRotation _ => [head p]
  | SetBodyRotation _ => [body p]
  | SetLegsScale _ => [rightFemur p; leftFemur p; rightShoulder p; leftShoulder p]
  | _ => []
  end.

(** ** Comparisons *)

Lemma Qgtb_true a b : Qgtb a b = true ↔ b < a.
Proof.
  unfold Qgtb. rewrite negb_true_iff, <- not_true_iff_false, Qle_bool_iff.
  split; [apply Qnot_le_lt | apply Qlt_not_le].
Qed.

Lemma Qgtb_false a b : Qgtb a b = false ↔ a <= b.
Proof. unfold Qgtb. rewrite negb_false_iff. apply Qle_bool_iff. Qed.

Lemma Qltb_true a b : Qltb a b = true ↔ a < b.
Proof. apply (Qgtb_true b a). Qed.

Lemma Qltb_false a b : Qltb a b = false ↔ b <= a.
Proof. apply (Qgtb_false b a). Qed.

Lemma Qleb_true a b : Qleb a b = true ↔ a <= b.
Proof. apply Qle_bool_iff. Qed.

Lemma Qleb_false a b : Qleb a b = false ↔ b < a.
Proof.
  unfold Qleb. rewrite <- not_true_iff_false, Qle_bool_iff.
  split; [apply Qnot_le_lt | apply Qlt_not_le].
Qed.

(** The guard the three setters share: the input, or the bound it passes. *)
Lemma limit_cases (lo hi v : Q) :
  lo <= hi →
  let c := if Qgtb v hi then hi else if Qltb v lo then lo else v in
  (lo <= c ∧ c <= hi)
  ∧ (hi < v → c = hi) ∧ (v < lo → c = lo) ∧ (lo <= v ∧ v <= hi → c = v).
Proof.
  intros Hlh. cbv zeta.
  destruct (Qgtb v hi) eqn:Hgt.
  - apply Qgtb_true in Hgt. repeat split; try lra; intros; exfalso; lra.
  - apply Qgtb_false in Hgt. destruct (Qltb v lo) eqn:Hlt.
    + apply Qltb_true in Hlt. repeat split; try lra; intros; exfalso; lra.
    + apply Qltb_false in Hlt. repeat split; try lra; intros; exfalso; lra.
Qed.

(** ** The invariant *)

(** Runs the constructor on symbolic parameters: the arithmetic on the
    dimensions stays as written. *)
Ltac build :=
  unfold built, new_Robot;
  cbv -[Qmult Qplus Qminus Qdiv Qopp Qinv Qeq Qle Qlt from_option
        p_robotHeight p_robotWidth p_materialBody p_materialShoulder
        p_materialFoot p_materialHead p_materialFemur].

Lemma new_Robot_built parameters :
  new_Robot parameters = Some (built parameters).
Proof. build. reflexivity. Qed.

Lemma built_reachable parameters : reachable (built parameters).
Proof. apply (reachable_new parameters), new_Robot_built. Qed.

Lemma built_alive parameters : dead (built parameters) = false.
Proof. build. reflexivity. Qed.

Lemma built_energy parameters : energy (built parameters) = 100.
Proof. build. reflexivity. Qed.

Lemma built_points parameters : points (built parameters) = 0.
Proof. build. reflexivity. Qed.

Lemma new_Robot_inv parameters w :
  new_Robot parameters = Some w → figure_inv w.
Proof.
  revert w. build. intros w [= <-]. repeat split. by exists parameters.
Qed.

#[local] Arguments Qmult : simpl never.
#[local] Arguments Qplus : simpl never.
#[local] Arguments Qminus : simpl never.
#[local] Arguments Qdiv : simpl never.
#[local] Arguments Qopp : simpl never.
#[local] Arguments Qgtb : simpl never.
#[local] Arguments Qltb : simpl never.
#[local] Arguments Qleb : simpl never.
#[local] Arguments degToRad : simpl never.

(** A heap with the constructor's child lists has its twelve nodes. *)
Lemma heap_nodes (h : list Object3D) :
  children <$> h = built_children →
  ∃ o0 o1 o2 o3 o4 o5 o6 o7 o8 o9 o10 o11,
    h = [o0; o1; o2; o3; o4; o5; o6; o7; o8; o9; o10; o11].
Proof.
  intros H.
  do 12 (destruct h as [|? h]; [discriminate H|]).
  destruct h; [|discriminate H]. by repeat eexists.
Qed.

(** Names the twelve nodes of a world that satisfies the invariant and
    replaces its fixed fields and slots by the constructor's. *)
Ltac open_world w H :=
  let h := fresh "h" in
  let pr := fresh "pr" in
  let lf := fresh "lf" in
  let pt := fresh "pt" in
  let Hp := fresh "Hprops" in
  let Hs := fresh "Hparts" in
  let Hc := fresh "Hchildren" in
  let p := fresh "parameters" in
  destruct H as [[p Hp] [Hs Hc]];
  destruct w as [h [pr lf pt]];
  cbn [this heap props parts life] in Hp, Hs, Hc;
  subst pr pt;
  destruct (heap_nodes h Hc)
    as (?o & ?o & ?o & ?o & ?o & ?o & ?o & ?o & ?o & ?o & ?o & ?o & ->).

(** Runs a method body on a world given by its fields. *)
Ltac run_method :=
  unfold exec, call, setHeadRotation, setBodyRotation, setLegsScale,
    substractEnergy, addEnergy, addPoints;
  unfold mbind, M_bind, mret, M_ret, vital, prop, slot, update, modify_this;
  cbn.

Lemma call_inv c w w' : figure_inv w → exec c w = Some w' → figure_inv w'.
Proof.
  intros Hinv. open_world w Hinv. destruct lf as [e n r [|]].
  - destruct c; run_method; intros [= <-];
      (split; [by exists parameters | by split]).
  - destruct c; run_method; try destruct (Qleb _ _); cbn; intros [= <-];
      (split; [by exists parameters | by split]).
Qed.

Lemma call_total c w : figure_inv w → is_Some (exec c w).
Proof.
  intros Hinv. open_world w Hinv. destruct lf as [e n r [|]].
  - destruct c; run_method; by eexists.
  - destruct c; run_method; try destruct (Qleb _ _); cbn; by eexists.
Qed.

Lemma reachable_inv w : reachable w → figure_inv w.
Proof.
  induction 1 as [parameters w H | c w w' _ IH H].
  - by apply new_Robot_inv with parameters.
  - by apply call_inv with c w.
Qed.

(** ** The dead figure *)

Lemma dead_call c w : dead w = true → exec c w = Some w.
Proof.
  unfold dead. intros H. destruct c; run_method; by rewrite H.
Qed.

Lemma dead_run cs w : dead w = true → run cs w = Some w.
Proof.
  intros H. induction cs as [|c cs IH]; [done|].
  cbn [run]. by rewrite dead_call.
Qed.

Lemma substractEnergy_total damage w :
  ∃ w', exec (SubstractEnergy damage) w = Some w'
        ∧ (dead w = false → energy w' = energy w - damage)
        ∧ (energy w' <= 0 → dead w' = true)
        ∧ (dead w = true → w' = w).
Proof.
  destruct w as [h [pr [e n r d]]]. unfold dead, energy. run_method.
  destruct d; cbn.
  - by eexists.
  - destruct (Qleb (e - damage) 0) eqn:Hle; cbn; eexists; (split; [done|]); cbn.
    + done.
    + apply Qleb_false in Hle. repeat split; try done. intros; lra.
Qed.

(** C1. A damage application that takes the energy to zero or below marks
    the figure dead, and on a dead figure every sequence of calls of the six
    methods returns and leaves the whole world, hence everything observable
    and the dead mark itself, as it was. *)
Theorem dead_figure_invariant (w : World) (damage : Q) :
  (∃ w', exec (SubstractEnergy damage) w = Some w'
         ∧ (energy w' <= 0 → dead w' = true))
  ∧ (dead w = true → ∀ cs, run cs w = Some w).
Proof.
  split.
  - destruct (substractEnergy_total damage w) as (w' & He & _ & Hd & _).
    by exists w'.
  - intros H cs. by apply dead_run.
Qed.

Lemma dead_figure_invariant_witness :
  ∃ w1,
    exec (SubstractEnergy 150) (built no_parameters) = Some w1
    ∧ energy w1 <= 0
    ∧ dead w1 = true
    ∧ run [SetHeadRotation 30; SetBodyRotation 10; SetLegsScale 1.1;
           SubstractEnergy 5; AddEnergy 10; AddPoints 3] w1 = Some w1.
Proof.
  destruct (dead_figure_invariant (built no_parameters) 150)
    as [(w1 & He & Hd) _].
  assert (Hle : energy w1 <= 0).
  { assert (H : energy <$> exec (SubstractEnergy 150) (built no_parameters)
                = Some (100 - 150)) by (vm_compute; reflexivity).
    rewrite He in H. injection H as ->. vm_compute. discriminate. }
  exists w1. split; [exact He|]. split; [exact Hle|].
  split; [exact (Hd Hle)|].
  apply (dead_figure_invariant w1 0), Hd, Hle.
Defined.

(** ** The motion limits *)

Lemma guard_limited (lo hi v : Q) :
  lo <= hi →
  limited lo hi v (if Qgtb v hi then hi else if Qltb v lo then lo else v).
Proof. apply limit_cases. Qed.

Lemma head_limits : -80 <= 80.
Proof. lra. Qed.
Lemma body_limits : -45 <= 30.
Proof. lra. Qed.
Lemma leg_limits : 1 <= 1.2.
Proof. lra. Qed.

(** What each setter does to a live figure. *)
Lemma live_setHeadRotation (w : World) (v : Q) :
  reachable w → dead w = false →
  ∃ w' c, exec (SetHeadRotation v) w = Some w'
          ∧ limited (-80) 80 v c
          ∧ y ∘ rotation <$> part head w' = Some (degToRad c).
Proof.
  intros Hinv%reachable_inv Halive. open_world w Hinv.
  unfold dead in Halive. cbn in Halive.
  eexists _, _. run_method. rewrite Halive. cbn.
  split; [reflexivity|]. split; [apply guard_limited, head_limits|done].
Qed.

Lemma live_setBodyRotation (w : World) (v : Q) :
  reachable w → dead w = false →
  ∃ w' c, exec (SetBodyRotation v) w = Some w'
          ∧ limited (-45) 30 v c
          ∧ x ∘ rotation <$> part body w' = Some (degToRad c).
Proof.
  intros Hinv%reachable_inv Halive. open_world w Hinv.
  unfold dead in Halive. cbn in Halive.
  eexists _, _. run_method. rewrite Halive. cbn.
  split; [reflexivity|]. split; [apply guard_limited, body_limits|done].
Qed.

Lemma live_setLegsScale (w : World) (v : Q) :
  reachable w → dead w = false →
  let legHeight := legHeight (props (this w)) in
  ∃ w' c,
    exec (SetLegsScale v) w = Some w'
    ∧ limited 1 1.2 v c
    ∧ scale <$> part rightFemur w' = Some (vec3 1 c 1)
    ∧ scale <$> part leftFemur w' = Some (vec3 1 c 1)
    ∧ y ∘ position <$> part rightFemur w' = Some (legHeight * 0.75 / 2)
    ∧ y ∘ position <$> part leftFemur w' = Some (legHeight * 0.75 / 2)
    ∧ y ∘ position <$> part rightShoulder w' = Some (legHeight * 0.75 * c)
    ∧ y ∘ position <$> part leftShoulder w' = Some (legHeight * 0.75 * c).
Proof.
  intros Hinv%reachable_inv Halive. open_world w Hinv.
  unfold dead in Halive. cbn in Halive.
  eexists _, _. run_method. rewrite Halive. cbn.
  split; [reflexivity|].
  split; [apply guard_limited, leg_limits|]. done.
Qed.

(** The Y scale is the middle component of the scale a femur gets. *)
Lemma scale_y (o : option Object3D) (c : Q) :
  scale <$> o = Some (vec3 1 c 1) → y ∘ scale <$> o = Some c.
Proof. destruct o as [o|]; [|done]. cbn. by intros [= ->]. Qed.

(** C2. On a live figure each setter returns, and what it writes is its
    input limited to the setter's interval: with [c] the input limited to
    [-80, 80], the head's Y rotation is c * Math.PI / 180; with [c] the
    input limited to [-45, 30], the body's X rotation is
    c * Math.PI / 180; both femurs' Y scale is the input limited to
    [1, 1.2]. *)
Theorem setters_apply_limited_input (w : World) (v : Q) :
  reachable w → dead w = false →
  (∃ w' c, exec (SetHeadRotation v) w = Some w'
           ∧ limited (-80) 80 v c
           ∧ y ∘ rotation <$> part head w' = Some (c * Math_PI / 180))
  ∧ (∃ w' c, exec (SetBodyRotation v) w = Some w'
             ∧ limited (-45) 30 v c
             ∧ x ∘ rotation <$> part body w' = Some (c * Math_PI / 180))
  ∧ (∃ w' c, exec (SetLegsScale v) w = Some w'
             ∧ limited 1 1.2 v c
             ∧ y ∘ scale <$> part rightFemur w' = Some c
             ∧ y ∘ scale <$> part leftFemur w' = Some c).
Proof.
  intros Hr Halive.
  split; [exact (live_setHeadRotation w v Hr Halive)|].
  split; [exact (live_setBodyRotation w v Hr Halive)|].
  destruct (live_setLegsScale w v Hr Halive)
    as (w' & c & He & Hc & Hrf & Hlf & _).
  exists w', c. auto using scale_y.
Qed.

Lemma setters_apply_limited_input_witness :
  let w0 := built no_parameters in
  (∃ w', exec (SetHeadRotation 99999) w0 = Some w'
         ∧ y ∘ rotation <$> part head w' = Some (80 * Math_PI / 180))
  ∧ (∃ w', exec (SetBodyRotation (-99999)) w0 = Some w'
           ∧ x ∘ rotation <$> part body w' = Some (-45 * Math_PI / 180))
  ∧ (∃ w', exec (SetLegsScale 99999) w0 = Some w'
           ∧ y ∘ scale <$> part rightFemur w' = Some 1.2
           ∧ y ∘ scale <$> part leftFemur w' = Some 1.2).
Proof.
  intros w0.
  pose proof (setters_apply_limited_input w0 99999
                (built_reachable _) (built_alive _))
    as ((wh & ch & Hh & (_ & Hch & _) & Hhy) & _
        & (wl & cl & Hl & (_ & Hcl & _) & Hlr & Hll)).
  pose proof (setters_apply_limited_input w0 (-99999)
                (built_reachable _) (built_alive _))
    as (_ & (wb & cb & Hb & (_ & _ & Hcb & _) & Hbx) & _).
  rewrite Hch in Hhy by reflexivity.
  rewrite Hcb in Hbx by reflexivity.
  rewrite Hcl in Hlr, Hll by reflexivity.
  split; [exists wh; split; assumption|].
  split; [exists wb; split; assumption|exists wl; repeat split; assumption].
Defined.

(** C5. On a live figure [setLegsScale] returns; with [c] its input limited
    to [1, 1.2], both femurs get the scale (1, c, 1) and the Y position
    legHeight * 0.75 / 2, and both shoulders the Y position
    legHeight * 0.75 * c.  An input above 1.2, such as 5, gives the stretch
    1.2 and the shoulders' Y position legHeight * 0.75 * 1.2. *)
Theorem setLegsScale_places_legs (w : World) (v : Q) :
  reachable w → dead w = false →
  let legHeight := legHeight (props (this w)) in
  ∃ w' c,
    exec (SetLegsScale v) w = Some w'
    ∧ limited 1 1.2 v c
    ∧ scale <$> part rightFemur w' = Some (vec3 1 c 1)
    ∧ scale <$> part leftFemur w' = Some (vec3 1 c 1)
    ∧ y ∘ position <$> part rightFemur w' = Some (legHeight * 0.75 / 2)
    ∧ y ∘ position <$> part leftFemur w' = Some (legHeight * 0.75 / 2)
    ∧ y ∘ position <$> part rightShoulder w' = Some (legHeight * 0.75 * c)
    ∧ y ∘ position <$> part leftShoulder w' = Some (legHeight * 0.75 * c).
Proof.
  intros Hr Halive legHeight.
  destruct (live_setLegsScale w v Hr Halive)
    as (w' & c & He & Hc & Hscales_positions).
  exists w', c. split; [exact He|]. split; [exact Hc|].
  exact Hscales_positions.
Qed.

Lemma setLegsScale_places_legs_witness :
  let w0 := built no_parameters in
  ∃ w',
    exec (SetLegsScale 5) w0 = Some w'
    ∧ scale <$> part rightFemur w' = Some (vec3 1 1.2 1)
    ∧ scale <$> part leftFemur w' = Some (vec3 1 1.2 1)
    ∧ y ∘ position <$> part rightShoulder w'
      = Some (legHeight (props (this w0)) * 0.75 * 1.2)
    ∧ y ∘ position <$> part leftShoulder w'
      = Some (legHeight (props (this w0)) * 0.75 * 1.2).
Proof.
  intros w0.
  pose proof (setLegsScale_places_legs w0 5
                (built_reachable _) (built_alive _))
    as (w' & c & He & (_ & Hc & _) & Hrf & Hlf & _ & _ & Hrs & Hls).
  rewrite Hc in Hrf, Hlf, Hrs, Hls by reflexivity.
  exists w'. repeat split; assumption.
Defined.

(** ** Idempotence of the motion setters *)

(** A write through a reference, as the update of the heap it is. *)
Lemma update_alter r f w :
  update r f w =
    if decide (r < length (heap w))%nat
    then Some (tt, {| heap := alter f r (heap w); this := this w |})
    else None.
Proof.
  unfold update. destruct (heap w !! r) as [o|] eqn:E.
  - rewrite decide_True by (by apply lookup_lt_Some with o).
    do 3 f_equal. rewrite list_insert_alter.
    apply list_alter_ext; [|done]. intros o' Ho'. cbn. f_equal. apply (inj Some). by rewrite <- E, <- Ho'.
  - rewrite decide_False; [done|]. apply lookup_ge_None in E. lia.
Qed.

Ltac run_writes :=
  repeat first
    [ rewrite update_alter; cbn [heap this]; rewrite ?length_alter;
      case_decide; [|done]; cbn -[update]
    | match goal with
      | |- context [match ?o with Some _ => _ | None => _ end] =>
          is_var o; destruct o; cbn -[update]; [|done]
      end ].


(** Writing the same components of the same nodes again changes nothing:
    node by node, according to which of the written references it is. *)
Ltac same_writes :=
  do 2 f_equal; apply list_eq;
  let j := fresh "j" in
  intros j;
  repeat match goal with
         | H : (?r < length _)%nat |- _ =>
             clear H;
             tryif constr_eq r j then idtac
             else lazymatch goal with
                  | _ : r ≠ j |- _ => idtac
                  | _ => destruct (decide (r = j)); [subst r|]
                  end
         end;
  repeat first [ rewrite list_lookup_alter_eq
               | rewrite list_lookup_alter_ne by done ];
  match goal with
  | |- context [?h !! j] => destruct (h !! j) as [[]|]; cbn; done
  end.

(** C6. In every world, reachable or not, a motion setter called twice with
    the same input leaves what one call leaves (and throws if one call
    throws); in every world a program can reach, the call returns. *)
Theorem motion_setters_idempotent (w : World) (c : Call) :
  motion_setter c = true →
  run [c; c] w = run [c] w ∧ (reachable w → is_Some (run [c] w)).
Proof.
  intros Hc. split.
  - destruct w as [h [pr [e n r d] [rft lft rf lf rs ls b hd hl tg ec ow]]].
    destruct c; try discriminate Hc; clear Hc;
      unfold run, exec, call, setHeadRotation, setBodyRotation, setLegsScale;
      unfold mbind, M_bind, option_bind, mret, M_ret, vital, prop, slot,
        modify_this;
      cbn -[update];
      (destruct d; cbn -[update]; [done|]);
      run_writes; same_writes.
  - intros Hr. destruct (call_total c w (reachable_inv w Hr)) as [w' He].
    exists w'. cbn [run]. by rewrite He.
Qed.

Lemma motion_setters_idempotent_witness :
  let w0 := built no_parameters in
  run [SetHeadRotation 30; SetHeadRotation 30] w0 = run [SetHeadRotation 30] w0
  ∧ run [SetBodyRotation 99; SetBodyRotation 99] w0 = run [SetBodyRotation 99] w0
  ∧ run [SetLegsScale 1.1; SetLegsScale 1.1] w0 = run [SetLegsScale 1.1] w0.
Proof.
  intros w0.
  pose proof (λ c Hc, proj1 (motion_setters_idempotent w0 c Hc)) as H.
  split; [exact (H (SetHeadRotation 30) eq_refl)|].
  split; [exact (H (SetBodyRotation 99) eq_refl)|].
  exact (H (SetLegsScale 1.1) eq_refl).
Defined.

(** ** The pose after construction and after the neutral stretch *)

(** C10. The constructor leaves each shoulder at
    Y = legHeight * 0.75 / 2 + legHeight * 0.125 / 2 and each femur at Y = 0.
    [setLegsScale(1)] on the new figure returns and leaves the shoulders at
    Y = legHeight * 0.75 * 1, that is legHeight * 0.75, and the femurs at
    Y = legHeight * 0.75 / 2.  Unless the robot height is zero, both values
    differ from the constructor's. *)
Theorem neutral_stretch_moves_legs (parameters : Parameters) :
  ∃ w0 w1,
    new_Robot parameters = Some w0
    ∧ exec (SetLegsScale 1) w0 = Some w1
    ∧ let legHeight := legHeight (props (this w0)) in
      let shoulderY0 := legHeight * 0.75 / 2 + legHeight * 0.125 / 2 in
      let shoulderY1 := legHeight * 0.75 * 1 in
      let femurY1 := legHeight * 0.75 / 2 in
      (y ∘ position <$> part rightShoulder w0 = Some shoulderY0
       ∧ y ∘ position <$> part leftShoulder w0 = Some shoulderY0
       ∧ y ∘ position <$> part rightFemur w0 = Some 0
       ∧ y ∘ position <$> part leftFemur w0 = Some 0)
      ∧ (y ∘ position <$> part rightShoulder w1 = Some shoulderY1
         ∧ y ∘ position <$> part leftShoulder w1 = Some shoulderY1
         ∧ y ∘ position <$> part rightFemur w1 = Some femurY1
         ∧ y ∘ position <$> part leftFemur w1 = Some femurY1)
      ∧ shoulderY1 == legHeight * 0.75
      ∧ (¬ robotHeight (props (this w0)) == 0 →
         ¬ shoulderY0 == shoulderY1 ∧ ¬ 0 == femurY1).
Proof.
  exists (built parameters). eexists.
  split; [apply new_Robot_built|].
  build. split; [reflexivity|].
  split; [done|]. split; [done|].
  set (h := from_option _ _ _).
  split; [ring|]. intros Hh.
  unfold Qdiv. change (/ 2) with (1 # 2).
  split; intros H; apply Hh; lra.
Qed.

Lemma neutral_stretch_moves_legs_witness :
  ∃ w0 w1,
    new_Robot no_parameters = Some w0
    ∧ exec (SetLegsScale 1) w0 = Some w1
    ∧ ¬ (y ∘ position <$> part rightShoulder w0) = (y ∘ position <$> part rightShoulder w1)
    ∧ ¬ (y ∘ position <$> part rightFemur w0) = (y ∘ position <$> part rightFemur w1).
Proof.
  destruct (neutral_stretch_moves_legs no_parameters)
    as (w0 & w1 & H0 & H1 & (Hs0 & _ & Hf0 & _) & (Hs1 & _ & Hf1 & _) & _ & Hne).
  exists w0, w1. split; [exact H0|]. split; [exact H1|].
  rewrite new_Robot_built in H0. apply (inj Some) in H0. subst w0.
  destruct Hne as [Hs Hf]; [vm_compute; discriminate|].
  rewrite Hs0, Hs1, Hf0, Hf1.
  split; intros E%(inj Some); [apply Hs | apply Hf]; rewrite E; reflexivity.
Defined.

(** ** Energy and points *)

Lemma keeps_this_ret {A : Type} (a : A) : keeps_this (mret a).
Proof. by intros w a' w' [= _ <-]. Qed.

Lemma keeps_this_bind {A B : Type} (m : M A) (f : A → M B) :
  keeps_this m → (∀ a, keeps_this (f a)) → keeps_this (m ≫= f).
Proof.
  intros Hm Hf w b w''. unfold mbind, M_bind.
  destruct (m w) as [[a w']|] eqn:E; [|done].
  intros H. rewrite (Hf a w' b w'' H). by apply Hm with a.
Qed.

Lemma keeps_this_prop {A : Type} (f : Properties → A) : keeps_this (prop f).
Proof. by intros w a w' [= _ <-]. Qed.

Lemma keeps_this_vital {A : Type} (f : Life → A) : keeps_this (vital f).
Proof. by intros w a w' [= _ <-]. Qed.

Lemma keeps_this_slot (f : Parts → option ref) : keeps_this (slot f).
Proof.
  intros w a w'. unfold slot. destruct (f _); [|done]. by intros [= _ <-].
Qed.

Lemma keeps_this_update r f : keeps_this (update r f).
Proof.
  intros w a w'. unfold update. destruct (heap w !! r); [|done].
  by intros [= _ <-].
Qed.

Create HintDb keeps.
#[local] Hint Resolve keeps_this_ret keeps_this_prop keeps_this_vital
  keeps_this_slot keeps_this_update : keeps.

Ltac keeps :=
  repeat first
    [ apply keeps_this_bind; [|intros ?]
    | match goal with |- keeps_this (if ?b then _ else _) => destruct b end
    | solve [auto with keeps] ].

Lemma setter_keeps_this c : motion_setter c = true → keeps_this (call c).
Proof.
  destruct c; try discriminate; intros _; cbn [call];
    unfold setHeadRotation, setBodyRotation, setLegsScale; keeps.
Qed.

Lemma setter_this c w w' :
  motion_setter c = true → exec c w = Some w' → this w' = this w.
Proof.
  intros Hc. unfold exec. destruct (call c w) as [[u w1]|] eqn:E; [|done].
  intros [= <-]. by apply (setter_keeps_this c Hc w u).
Qed.

(** What a call does to the energy and to the points, in any world. *)
Lemma call_energy c w w' :
  exec c w = Some w' →
  energy w' =
    match c with
    | SubstractEnergy damage =>
        if dead w then energy w else energy w - damage
    | AddEnergy amount =>
        if dead w then energy w
        else if Qgtb (energy w + amount) (MAX_ROBOT_ENERGY (props (this w)))
             then MAX_ROBOT_ENERGY (props (this w))
             else energy w + amount
    | _ => energy w
    end.
Proof.
  intros H.
  destruct (motion_setter c) eqn:Hc.
  - unfold energy. rewrite (setter_this c w w' Hc H). by destruct c.
  - revert H. destruct w as [h [pr [e n r d] pt]]. unfold energy, points, dead.
    destruct c; try discriminate Hc; run_method; destruct d; cbn;
      repeat case_match; intros; cbn in *; simplify_eq; cbn; done.
Qed.

Lemma call_points c w w' :
  exec c w = Some w' →
  points w' =
    match c with
    | AddPoints amount => if dead w then points w else points w + amount
    | _ => points w
    end.
Proof.
  intros H.
  destruct (motion_setter c) eqn:Hc.
  - unfold points. rewrite (setter_this c w w' Hc H). by destruct c.
  - revert H. destruct w as [h [pr [e n r d] pt]]. unfold energy, points, dead.
    destruct c; try discriminate Hc; run_method; destruct d; cbn;
      repeat case_match; intros; cbn in *; simplify_eq; cbn; done.
Qed.

(** The dead mark after a call: only [substractEnergy] sets it. *)
Lemma call_dead c w w' :
  exec c w = Some w' →
  dead w' =
    match c with
    | SubstractEnergy damage => dead w || Qleb (energy w - damage) 0
    | _ => dead w
    end.
Proof.
  intros H.
  destruct (motion_setter c) eqn:Hc.
  - unfold dead. rewrite (setter_this c w w' Hc H). by destruct c.
  - revert H. destruct w as [h [pr [e n r d] pt]]. unfold energy, points, dead.
    destruct c; try discriminate Hc; run_method; destruct d; cbn;
      repeat case_match; intros; cbn in *; simplify_eq; cbn; done.
Qed.

Lemma reachable_max_energy w :
  reachable w → MAX_ROBOT_ENERGY (props (this w)) = 100.
Proof. intros ([p Hp] & _)%reachable_inv. by rewrite Hp. Qed.

Lemma call_energy_le c w w' :
  reachable w → damage_nonneg c → energy w <= 100 →
  exec c w = Some w' → energy w' <= 100.
Proof.
  intros Hr Hc Hle He. rewrite (call_energy c w w' He).
  rewrite (reachable_max_energy w Hr).
  destruct c; cbn in Hc |- *; try done; destruct (dead w); try done.
  - lra.
  - destruct (Qgtb _ _) eqn:Hgt; [lra | by apply Qgtb_false in Hgt].
Qed.


Lemma run_energy_le cs w :
  reachable w → Forall damage_nonneg cs → energy w <= 100 →
  ∃ w', run cs w = Some w' ∧ energy w' <= 100.
Proof.
  intros Hr Hcs. revert w Hr.
  induction Hcs as [|c cs Hc _ IH]; intros w Hr Hle.
  - by exists w.
  - destruct (call_total c w (reachable_inv w Hr)) as [w1 H1].
    cbn [run]. rewrite H1. cbn. apply IH.
    + by apply reachable_call with c w.
    + by apply call_energy_le with c w.
Qed.





Lemma run_points_nonneg cs w :
  reachable w → Forall points_nonneg cs → 0 <= points w →
  ∃ w', run cs w = Some w' ∧ points w <= points w'.
Proof.
  intros Hr Hcs. revert w Hr.
  induction Hcs as [|c cs Hc _ IH]; intros w Hr Hle.
  - exists w. split; [done|lra].
  - destruct (call_total c w (reachable_inv w Hr)) as [w1 H1].
    cbn [run]. rewrite H1. cbn.
    assert (H01 : points w <= points w1).
    { rewrite (call_points c w w1 H1).
      destruct c; cbn in Hc |- *; try lra. destruct (dead w); lra. }
    destruct (IH w1) as (w' & Hw' & Hle'); [by apply reachable_call with c w|lra|].
    exists w'. split; [done|lra].
Qed.

(** C7, as the code has it.  A new figure has 0 points.  Every call
    returns; only [addPoints] on a live figure changes the points: an
    amount that is not negative never lowers them, a dead figure keeps its
    points, and so does every call other than [addPoints].  After any calls
    whose points amounts are not negative the points are at least 0. *)
Theorem points_accumulate (parameters : Parameters) :
  ∃ w0,
    new_Robot parameters = Some w0
    ∧ points w0 = 0
    ∧ (∀ cs, Forall points_nonneg cs →
         ∃ w, run cs w0 = Some w ∧ 0 <= points w)
    ∧ (∀ w c, reachable w →
         ∃ w', exec c w = Some w'
               ∧ (points_nonneg c → points w <= points w')
               ∧ (dead w = true → points w' = points w)
               ∧ ((∀ amount, c ≠ AddPoints amount) → points w' = points w)).
Proof.
  exists (built parameters).
  split; [apply new_Robot_built|]. split; [apply built_points|].
  split.
  - intros cs Hcs.
    destruct (run_points_nonneg cs (built parameters)) as (w & Hw & Hle);
      [apply built_reachable|done|rewrite built_points; lra|].
    exists w. split; [done|]. by rewrite built_points in Hle.
  - intros w c Hr.
    destruct (call_total c w (reachable_inv w Hr)) as [w' He].
    exists w'. split; [exact He|].
    rewrite (call_points c w w' He). repeat split.
    + intros Hc. destruct c; cbn in Hc |- *; try lra. destruct (dead w); lra.
    + intros Hd. rewrite Hd. by destruct c.
    + intros Hc. destruct c; try done. by destruct (Hc points0).
Qed.

Lemma points_accumulate_witness :
  ∃ w0 w,
    new_Robot no_parameters = Some w0
    ∧ run [AddPoints 10; SetHeadRotation 5; AddPoints 0; SubstractEnergy 100;
           AddPoints 7] w0 = Some w
    ∧ 0 <= points w.
Proof.
  destruct (points_accumulate no_parameters) as (w0 & H0 & _ & Hrun & _).
  destruct (Hrun [AddPoints 10; SetHeadRotation 5; AddPoints 0;
                  SubstractEnergy 100; AddPoints 7]) as (w & Hw & Hle).
  { repeat constructor; cbn; lra. }
  exists w0, w. split; [exact H0|]. split; [exact Hw|exact Hle].
Defined.

(** C7 as stated fails.  From the new figure, which has 0 points,
    [addPoints(-5)] leaves -5 points: below the previous value and below 0. *)
Lemma points_accumulate_counterexample :
  ∃ w0 w1,
    new_Robot no_parameters = Some w0
    ∧ dead w0 = false
    ∧ exec (AddPoints (-5)) w0 = Some w1
    ∧ points w1 == -5
    ∧ ¬ points w0 <= points w1
    ∧ ¬ 0 <= points w1.
Proof.
  eexists (built no_parameters), _.
  split; [apply new_Robot_built|].
  split; [vm_compute; reflexivity|].
  split; [vm_compute; reflexivity|].
  split; [vm_compute; reflexivity|].
  split; vm_compute; intros H; by apply H.
Qed.

(** ** Healing *)

(** C9. [addEnergy] returns in every world and changes nothing but
    [currentEnergy]: the scene nodes, the fixed fields, the slots, the dead
    mark, the points and the rotation field stay.  It has no death check:
    [addEnergy(-150)] on a new figure leaves energy 100 + -150, that is -50,
    with the figure still alive, and the three motion setters still apply
    their limited input. *)
Theorem addEnergy_only_energy (w : World) (amount : Q) :
  (∃ w', exec (AddEnergy amount) w = Some w'
         ∧ heap w' = heap w
         ∧ props (this w') = props (this w)
         ∧ parts (this w') = parts (this w)
         ∧ dead w' = dead w
         ∧ points w' = points w
         ∧ currentRotation (life (this w')) = currentRotation (life (this w)))
  ∧ (∀ parameters, ∃ w0 w1,
       new_Robot parameters = Some w0
       ∧ exec (AddEnergy (-150)) w0 = Some w1
       ∧ energy w1 = 100 + -150 ∧ energy w1 <= 0
       ∧ dead w1 = false
       ∧ ∀ v,
           (∃ w2 c, exec (SetHeadRotation v) w1 = Some w2
                    ∧ limited (-80) 80 v c
                    ∧ y ∘ rotation <$> part head w2 = Some (degToRad c))
           ∧ (∃ w2 c, exec (SetBodyRotation v) w1 = Some w2
                      ∧ limited (-45) 30 v c
                      ∧ x ∘ rotation <$> part body w2 = Some (degToRad c))
           ∧ (∃ w2 c, exec (SetLegsScale v) w1 = Some w2
                      ∧ limited 1 1.2 v c
                      ∧ y ∘ scale <$> part rightFemur w2 = Some c
                      ∧ y ∘ scale <$> part leftFemur w2 = Some c)).
Proof.
  split.
  - destruct w as [h [pr [e n r d] pt]]. unfold dead, points.
    run_method. destruct d; cbn; by eexists.
  - intros parameters.
    destruct (call_total (AddEnergy (-150)) (built parameters)
                (reachable_inv _ (built_reachable parameters))) as [w1 H1].
    exists (built parameters), w1.
    split; [apply new_Robot_built|]. split; [exact H1|].
    assert (He : energy w1 = 100 + -150).
    { rewrite (call_energy _ _ _ H1), built_alive, built_energy.
      rewrite (reachable_max_energy _ (built_reachable parameters)).
      reflexivity. }
    assert (Hd : dead w1 = false)
      by (rewrite (call_dead _ _ _ H1); apply built_alive).
    split; [exact He|]. split; [rewrite He; lra|]. split; [exact Hd|].
    assert (Hr : reachable w1)
      by (apply reachable_call with (AddEnergy (-150)) (built parameters);
          [apply built_reachable | exact H1]).
    intros v.
    split; [by apply live_setHeadRotation|].
    split; [by apply live_setBodyRotation|].
    destruct (live_setLegsScale w1 v Hr Hd)
      as (w2 & c & H2 & Hc & Hrf & Hlf & _).
    exists w2, c. auto using scale_y.
Qed.

Lemma addEnergy_only_energy_witness :
  ∃ w0 w1 w2,
    new_Robot no_parameters = Some w0
    ∧ exec (AddEnergy (-150)) w0 = Some w1
    ∧ energy w1 <= 0 ∧ dead w1 = false
    ∧ exec (SetHeadRotation 10) w1 = Some w2
    ∧ y ∘ rotation <$> part head w2 = Some (degToRad 10).
Proof.
  destruct (addEnergy_only_energy (built no_parameters) 0) as [_ H].
  destruct (H no_parameters) as (w0 & w1 & H0 & H1 & _ & Hle & Hd & Hset).
  destruct (Hset 10) as ((w2 & c & H2 & (_ & _ & _ & Hc) & Hy) & _).
  rewrite Hc in Hy by (split; vm_compute; discriminate).
  exists w0, w1, w2. repeat split; assumption.
Defined.

(** ** The derived dimensions *)

(** C4. For every parameters the constructor returns a figure whose height
    and width are the given ones, 21 and 12.5 when absent, and whose derived
    dimensions are the fixed multiples: the four dimension fields, and the
    dimensions the factories give to the geometries of the feet, femurs,
    shoulders and eye.  With the default height the leg height is 15.9999
    and the head radius 2.9988. *)
Theorem derived_dimensions (parameters : Parameters) :
  ∃ w,
    new_Robot parameters = Some w
    ∧ let t := props (this w) in
      (robotHeight t = default 21 (p_robotHeight parameters)
       ∧ robotWidth t = default 12.5 (p_robotWidth parameters))
      ∧ (legHeight t = robotHeight t * 0.7619
         ∧ bodyHeight t = robotHeight t * 0.6667
         ∧ bodyWidth t = bodyHeight t * 0.5
         ∧ headRadius t = robotHeight t * 0.1428)
      ∧ (let footHeight := legHeight t * 0.125 in
         let footRadiusTop := footHeight / 2 in
         let footRadiusBottom := legHeight t * 0.1875 / 2 in
         let foot := CylinderGeometry footRadiusTop footRadiusBottom
                       footHeight 30 None in
         part rightFoot w ≫= geometry = Some foot
         ∧ part leftFoot w ≫= geometry = Some foot)
      ∧ (let femurLength := legHeight t * 0.75 in
         let femurRadius := legHeight t * 0.09375 * 0.5 in
         let femur := CylinderGeometry femurRadius femurRadius
                        femurLength 30 None in
         part rightFemur w ≫= geometry = Some femur
         ∧ part leftFemur w ≫= geometry = Some femur)
      ∧ (let shoulderSide := legHeight t * 0.125 in
         let shoulder := BoxGeometry shoulderSide shoulderSide shoulderSide in
         part rightShoulder w ≫= geometry = Some shoulder
         ∧ part leftShoulder w ≫= geometry = Some shoulder)
      ∧ (let eyeRadius := headRadius t * 0.25 in
         let eyeHeight := eyeRadius / 2 in
         let eye := CylinderGeometry eyeRadius eyeRadius eyeHeight
                      30 (Some 30%nat) in
         (hd ← part head w; e ← child 0 hd w; geometry e)
         = Some (RotatedX (Math_PI / 3) eye))
      ∧ (p_robotHeight parameters = None →
         legHeight t == 15.9999 ∧ headRadius t == 2.9988).
Proof.
  exists (built parameters). split; [apply new_Robot_built|].
  build. repeat split;
    match goal with H : _ = None |- _ => rewrite H end; reflexivity.
Qed.

Lemma derived_dimensions_witness :
  ∃ w,
    new_Robot no_parameters = Some w
    ∧ robotHeight (props (this w)) = 21
    ∧ robotWidth (props (this w)) = 12.5
    ∧ legHeight (props (this w)) == 15.9999
    ∧ headRadius (props (this w)) == 2.9988.
Proof.
  destruct (derived_dimensions no_parameters)
    as (w & Hw & (Hh & Hwd) & _ & _ & _ & _ & _ & Hdefault).
  destruct Hdefault as [Hl Hr]; [reflexivity|].
  exists w. repeat split; assumption.
Defined.

(** ** The shape of the scene graph *)

Lemma new_app (h l : list Object3D) t k :
  new k {| heap := h ++ l; this := t |}
  = Some ((length h + length l)%nat,
          {| heap := h ++ (l ++ [new_Object3D k]); this := t |}).
Proof. unfold new. cbn. by rewrite length_app, <- app_assoc. Qed.

Lemma lookup_app_at (h l : list Object3D) (i : nat) :
  (h ++ l) !! (length h + i)%nat = l !! i.
Proof.
  rewrite lookup_app_r by lia. f_equal. lia.
Qed.

Lemma update_app (h l : list Object3D) t (i : nat) f o :
  l !! i = Some o →
  update (length h + i)%nat f {| heap := h ++ l; this := t |}
  = Some (tt, {| heap := h ++ <[i := f o]> l; this := t |}).
Proof.
  intros Hi. unfold update. cbn.
  rewrite lookup_app_at, Hi. by rewrite insert_app_r.
Qed.

(** Runs a factory on a heap that extends an arbitrary one. *)
Ltac run_factory :=
  unfold createFoot, createFemur, createShoulder, createBody, createHead,
    createEye;
  unfold mbind, M_bind, mret, M_ret, prop, modify_this;
  cbn -[new update Nat.add];
  repeat (first [ rewrite new_app
                | erewrite update_app by reflexivity
                | progress change (Qgeb 1 0) with true
                | progress change (Qgeb (-1) 0) with false ];
          cbn -[new update Nat.add]).

(** Closes the goals left after a factory has run: lookups in the new part
    of the heap, and the prefix the old heap is. *)
Ltac read_heap :=
  unfold node; cbn [heap this parts];
  rewrite ?lookup_app_at;
  first [ reflexivity
        | apply prefix_app, prefix_nil
        | idtac ].

Lemma createHead_records (w : World) : createHead_contract w.
Proof.
  unfold createHead_contract.
  destruct w as [h t]. rewrite <- (app_nil_r h).
  run_factory. eexists _, _, _. split; [reflexivity|].
  repeat split; read_heap.
Qed.

Lemma createBody_records (w : World) : createBody_contract w.
Proof.
  unfold createBody_contract.
  destruct w as [h t]. rewrite <- (app_nil_r h).
  run_factory. eexists _, _, _, _. split; [reflexivity|].
  repeat split; read_heap.
Qed.

Lemma createFoot_records (side : Q) (w : World) : createFoot_contract side w.
Proof.
  unfold createFoot_contract.
  destruct w as [h t]. rewrite <- (app_nil_r h).
  destruct (Qgeb side 0) eqn:Hside.
  - run_factory. rewrite Hside. run_factory.
    eexists _, _, _, _. split; [reflexivity|].
    repeat split; read_heap. eexists _, _, _. repeat split; read_heap.
  - run_factory. rewrite Hside. run_factory.
    eexists _, _, _, _. split; [reflexivity|].
    repeat split; read_heap.
Qed.

(** C8. In the figure the constructor returns, the left foot (made with
    side 1) holds the left femur and the left shoulder, the right foot (made
    with side -1) the right femur and the right shoulder; the left shoulder's
    only child is the body, the body's the head, the head's the eye, and the
    right shoulder has no child.  The body has the left shoulder as its only
    parent, and likewise the head the body and the eye the head.  In any
    world, [createFoot] returns the foot of a new foot-femur-shoulder subtree
    and records femur and shoulder in the slots of the side (left when the
    side is not negative, and then with the body under the shoulder), and
    [createBody] and [createHead] record the body and the head. *)
Theorem body_under_left_shoulder
    (parameters : Parameters) (side : Q) (w : World) :
  (∃ w0 rf lf rfm lfm rs ls b hd e,
     new_Robot parameters = Some w0
     ∧ (rightFoot (parts (this w0)) = Some rf
        ∧ leftFoot (parts (this w0)) = Some lf
        ∧ rightFemur (parts (this w0)) = Some rfm
        ∧ leftFemur (parts (this w0)) = Some lfm
        ∧ rightShoulder (parts (this w0)) = Some rs
        ∧ leftShoulder (parts (this w0)) = Some ls
        ∧ body (parts (this w0)) = Some b
        ∧ head (parts (this w0)) = Some hd)
     ∧ (children <$> node rf w0 = Some [rfm; rs]
        ∧ children <$> node lf w0 = Some [lfm; ls]
        ∧ children <$> node ls w0 = Some [b]
        ∧ children <$> node rs w0 = Some []
        ∧ children <$> node b w0 = Some [hd]
        ∧ children <$> node hd w0 = Some [e]
        ∧ children <$> node e w0 = Some [])
     ∧ (parents b w0 = [ls] ∧ parents hd w0 = [b] ∧ parents e w0 = [hd])
     ∧ ((b ∉ own (parts (this w0))) ∧ ls ≠ rs))
  ∧ createFoot_contract side w
  ∧ createBody_contract w
  ∧ createHead_contract w.
Proof.
  split; [|split; [apply createFoot_records|
           split; [apply createBody_records|apply createHead_records]]].
  exists (built parameters). eexists _, _, _, _, _, _, _, _, _.
  split; [apply new_Robot_built|].
  build. split; [repeat split|]. split; [repeat split|].
  split; [repeat split|]. split; [|discriminate].
  intros H. repeat (apply elem_of_cons in H as [H|H]; [discriminate H|]).
  by apply elem_of_nil in H.
Qed.

(** ** The concrete cases on doubles *)

(** The default heights of C4 are the doubles written 15.9999 and 2.9988. *)
Lemma binary64_default_heights :
  Binary64.legHeight 21 = 15.9999%float
  ∧ Binary64.headRadius 21 = 2.9988%float.
Proof. split; vm_compute; reflexivity. Qed.

(** The inputs of C2 and C5 far outside the intervals go to the bounds. *)
Lemma binary64_limits :
  Binary64.limit 80 (-80) 99999 = 80%float
  ∧ Binary64.limit 80 (-80) (-99999) = (-80)%float
  ∧ Binary64.limit 30 (-45) 99999 = 30%float
  ∧ Binary64.limit 30 (-45) (-99999) = (-45)%float
  ∧ Binary64.limit 1.2 1 5 = 1.2%float
  ∧ Binary64.limit 1.2 1 (-99999) = 1%float.
Proof. repeat split; vm_compute; reflexivity. Qed.

(** The runs of the counterexamples of C3 and C7 and of the example of C9
    give the same numbers on doubles. *)
Lemma binary64_life :
  Binary64.substractEnergy 150 (100, false)%float = ((-50)%float, true)
  ∧ Binary64.substractEnergy (-50) (100, false)%float = (150%float, false)
  ∧ Binary64.addPoints (-5) (0, false)%float = ((-5)%float, false)
  ∧ Binary64.addEnergy (-150) (100, false)%float = ((-50)%float, false).
Proof. repeat split; vm_compute; reflexivity. Qed.

(** * Further properties of the code *)

(** ** Degrees to radians *)

Lemma Math_PI_pos : 0 < Math_PI.
Proof. reflexivity. Qed.

Lemma degToRad_scale (a : Q) : degToRad a == a * (Math_PI / 180).
Proof. unfold degToRad. field. Qed.

(** X1. [degToRad] is odd and keeps the order: it maps opposites to
    opposites, never swaps two angles, and sends 0 to 0 and 180 to
    [Math.PI]. *)
Theorem degToRad_odd_monotone (a b : Q) :
  degToRad (- a) == - degToRad a
  ∧ (a <= b → degToRad a <= degToRad b)
  ∧ degToRad 0 == 0
  ∧ degToRad 180 == Math_PI.
Proof.
  rewrite !degToRad_scale.
  assert (Hk : 0 < Math_PI / 180) by reflexivity.
  set (k := Math_PI / 180) in *.
  repeat split; try (intros; nra); ring.
Qed.

Lemma degToRad_odd_monotone_witness :
  degToRad (-45) <= degToRad 30 ∧ degToRad (- (-45)) == - degToRad (-45).
Proof.
  destruct (degToRad_odd_monotone (-45) 30) as (Hodd & Hle & _).
  split; [apply Hle; lra|exact Hodd].
Defined.

(** X2. On a live figure the angle [setHeadRotation] writes lies, in
    radians, between [degToRad(-80)] and [degToRad(80)], strictly inside a
    quarter turn either way; the angle [setBodyRotation] writes lies between
    [degToRad(-45)] and [degToRad(30)], that is between an eighth of a turn
    back and a twelfth of a turn forward. *)
Theorem rotations_in_radians (w : World) (v : Q) :
  reachable w → dead w = false →
  (∃ w' θ, exec (SetHeadRotation v) w = Some w'
           ∧ y ∘ rotation <$> part head w' = Some θ
           ∧ degToRad (-80) <= θ ∧ θ <= degToRad 80
           ∧ - (Math_PI / 2) < θ ∧ θ < Math_PI / 2)
  ∧ (∃ w' θ, exec (SetBodyRotation v) w = Some w'
             ∧ x ∘ rotation <$> part body w' = Some θ
             ∧ degToRad (-45) <= θ ∧ θ <= degToRad 30
             ∧ - (Math_PI / 4) <= θ ∧ θ <= Math_PI / 6).
Proof.
  intros Hr Halive. pose proof Math_PI_pos as Hpi. split.
  - destruct (live_setHeadRotation w v Hr Halive)
      as (w' & c & He & ((Hlo & Hhi) & _) & Hy).
    exists w', (degToRad c). split; [exact He|]. split; [exact Hy|].
    rewrite !degToRad_scale. unfold Qdiv in *.
    change (/ 180) with (1 # 180). change (/ 2) with (1 # 2).
    repeat split; nra.
  - destruct (live_setBodyRotation w v Hr Halive)
      as (w' & c & He & ((Hlo & Hhi) & _) & Hx).
    exists w', (degToRad c). split; [exact He|]. split; [exact Hx|].
    rewrite !degToRad_scale. unfold Qdiv in *.
    change (/ 180) with (1 # 180). change (/ 4) with (1 # 4).
    change (/ 6) with (1 # 6).
    repeat split; nra.
Qed.

Lemma rotations_in_radians_witness :
  let w0 := built no_parameters in
  ∃ w' θ, exec (SetHeadRotation 99999) w0 = Some w'
          ∧ y ∘ rotation <$> part head w' = Some θ
          ∧ θ < Math_PI / 2.
Proof.
  intros w0.
  destruct (rotations_in_radians w0 99999 (built_reachable _) (built_alive _))
    as [(w' & θ & He & Hy & _ & _ & _ & Hlt) _].
  exists w', θ. repeat split; assumption.
Defined.

(** ** How the motion setters compose *)

(** Opens two-call histories of motion setters in a world given by its
    fields, and follows every way the calls can go: a slot defined or not,
    a reference inside the heap or not. *)
Ltac run_two_setters :=
  unfold run, exec, call, setHeadRotation, setBodyRotation, setLegsScale;
  unfold mbind, M_bind, option_bind, mret, M_ret, vital, prop, slot,
    modify_this;
  cbn -[update];
  repeat first
    [ match goal with |- ?a = ?a => reflexivity end
    | match goal with
      | |- context [match ?o with Some _ => _ | None => _ end] =>
          is_var o; destruct o; cbn -[update]
      end
    | progress repeat (rewrite update_alter; cbn [heap this];
                       rewrite ?length_alter)
    | case_decide; cbn -[update]; try lia ].

(** X3. A motion setter sets, it does not add: in every world, calling the
    same setter with input [a] and then with input [b] leaves what the call
    with [b] alone leaves. *)
Theorem setter_overwrites (w : World) (c1 c2 : Call) :
  same_setter c1 c2 = true → run [c1; c2] w = run [c2] w.
Proof.
  intros Hc.
  destruct w as [h [pr [e n r [|]] [rft lft rf lf rs ls b hd hl tg ec ow]]];
    destruct c1, c2; try discriminate Hc; clear Hc;
    run_two_setters; same_writes.
Qed.

Lemma setter_overwrites_witness :
  let w0 := built no_parameters in
  run [SetLegsScale 1.2; SetLegsScale 1.05] w0 = run [SetLegsScale 1.05] w0.
Proof.
  intros w0.
  exact (setter_overwrites w0 (SetLegsScale 1.2) (SetLegsScale 1.05) eq_refl).
Defined.

(** X4. Different motion setters commute: in every world, two calls of two
    different setters leave the same world in either order (and throw in
    either order if one of them throws). *)
Theorem different_setters_commute (w : World) (c1 c2 : Call) :
  motion_setter c1 = true → motion_setter c2 = true →
  same_setter c1 c2 = false →
  run [c1; c2] w = run [c2; c1] w.
Proof.
  intros H1 H2 Hc.
  destruct w as [h [pr [e n r [|]] [rft lft rf lf rs ls b hd hl tg ec ow]]];
    destruct c1, c2; try discriminate H1; try discriminate H2;
    try discriminate Hc; clear H1 H2 Hc;
    run_two_setters; same_writes.
Qed.

Lemma different_setters_commute_witness :
  let w0 := built no_parameters in
  run [SetHeadRotation 30; SetLegsScale 1.1] w0
  = run [SetLegsScale 1.1; SetHeadRotation 30] w0.
Proof.
  intros w0.
  exact (different_setters_commute w0 (SetHeadRotation 30) (SetLegsScale 1.1)
           eq_refl eq_refl eq_refl).
Defined.

(** ** What the calls leave alone *)

Lemma keeps_field_ret {A B : Type} (g : Object3D → B) (a : A) :
  keeps_field g (mret a).
Proof. by intros w a' w' [= _ <-]. Qed.

Lemma keeps_field_bind {A B C : Type} (g : Object3D → C)
    (m : M A) (f : A → M B) :
  keeps_field g m → (∀ a, keeps_field g (f a)) → keeps_field g (m ≫= f).
Proof.
  intros Hm Hf w b w''. unfold mbind, M_bind.
  destruct (m w) as [[a w']|] eqn:E; [|done].
  intros H. rewrite (Hf a w' b w'' H). by apply Hm with a.
Qed.

Lemma keeps_field_prop {A B : Type} (g : Object3D → B) (f : Properties → A) :
  keeps_field g (prop f).
Proof. by intros w a w' [= _ <-]. Qed.

Lemma keeps_field_vital {A B : Type} (g : Object3D → B) (f : Life → A) :
  keeps_field g (vital f).
Proof. by intros w a w' [= _ <-]. Qed.

Lemma keeps_field_slot {B : Type} (g : Object3D → B) (f : Parts → option ref) :
  keeps_field g (slot f).
Proof.
  intros w a w'. unfold slot. destruct (f _); [|done]. by intros [= _ <-].
Qed.

Lemma keeps_field_update {B : Type} (g : Object3D → B) r f :
  (∀ o, g (f o) = g o) → keeps_field g (update r f).
Proof.
  intros Hf w a w'. unfold update, ref in *.
  destruct (_ !! _) as [o|] eqn:E; [|done].
  intros [= _ <-]. cbn. rewrite list_fmap_insert, Hf.
  apply list_insert_id. by rewrite list_lookup_fmap, E.
Qed.

Ltac keeps_field :=
  repeat first
    [ apply keeps_field_bind; [|intros ?]
    | match goal with |- keeps_field _ (if ?b then _ else _) => destruct b end
    | apply keeps_field_ret
    | apply keeps_field_prop
    | apply keeps_field_vital
    | apply keeps_field_slot
    | apply keeps_field_update; intros [? [] [] [] ? ?]; reflexivity ].

Lemma keeps_field_exec {B : Type} (g : Object3D → B) c w w' :
  keeps_field g (call c) → exec c w = Some w' → g <$> heap w' = g <$> heap w.
Proof.
  intros Hk. unfold exec. destruct (call c w) as [[u w1]|] eqn:E; [|done].
  intros [= <-]. by apply (Hk w u).
Qed.

(** The components no motion setter writes. *)
Lemma setter_keeps_shape c :
  motion_setter c = true →
  keeps_field kind (call c) ∧ keeps_field castShadow (call c)
  ∧ keeps_field children (call c).
Proof.
  destruct c; try discriminate; intros _; cbn [call];
    unfold setHeadRotation, setBodyRotation, setLegsScale;
    repeat split; keeps_field.
Qed.

(** X5. What the motion setters never touch, in any world: the figure's own
    fields, and of every scene node its kind (geometry and material), its
    shadow flag and its children.  Besides, [setHeadRotation] leaves every
    position, every scale and the X and Z rotations, [setBodyRotation] every
    position, every scale and the Y and Z rotations, and [setLegsScale]
    every rotation and the X and Z positions. *)
Theorem setters_frame (w w' : World) (c : Call) :
  motion_setter c = true → exec c w = Some w' →
  this w' = this w
  ∧ kind <$> heap w' = kind <$> heap w
  ∧ castShadow <$> heap w' = castShadow <$> heap w
  ∧ children <$> heap w' = children <$> heap w
  ∧ match c with
    | SetHeadRotation _ =>
        position <$> heap w' = position <$> heap w
        ∧ scale <$> heap w' = scale <$> heap w
        ∧ (λ o, (x (rotation o), z (rotation o))) <$> heap w'
          = (λ o, (x (rotation o), z (rotation o))) <$> heap w
    | SetBodyRotation _ =>
        position <$> heap w' = position <$> heap w
        ∧ scale <$> heap w' = scale <$> heap w
        ∧ (λ o, (y (rotation o), z (rotation o))) <$> heap w'
          = (λ o, (y (rotation o), z (rotation o))) <$> heap w
    | SetLegsScale _ =>
        rotation <$> heap w' = rotation <$> heap w
        ∧ (λ o, (x (position o), z (position o))) <$> heap w'
          = (λ o, (x (position o), z (position o))) <$> heap w
    | _ => True
    end.
Proof.
  intros Hc He.
  destruct (setter_keeps_shape c Hc) as (Hk & Hs & Hch).
  split; [by apply setter_this with c|].
  split; [by apply keeps_field_exec with c|].
  split; [by apply keeps_field_exec with c|].
  split; [by apply keeps_field_exec with c|].
  destruct c; try discriminate Hc; repeat split;
    (apply keeps_field_exec with (2 := He); cbn [call];
     unfold setHeadRotation, setBodyRotation, setLegsScale; keeps_field).
Qed.

Lemma setters_frame_witness :
  ∃ w', exec (SetLegsScale 1.1) (built no_parameters) = Some w'
        ∧ this w' = this (built no_parameters)
        ∧ rotation <$> heap w' = rotation <$> heap (built no_parameters).
Proof.
  destruct (call_total (SetLegsScale 1.1) (built no_parameters)
              (reachable_inv _ (built_reachable _))) as [w' He].
  destruct (setters_frame _ _ (SetLegsScale 1.1) eq_refl He)
    as (Ht & _ & _ & _ & Hrot & _).
  exists w'. repeat split; assumption.
Defined.

Lemma life_call_frame c w w' :
  motion_setter c = false → exec c w = Some w' →
  heap w' = heap w ∧ props (this w') = props (this w)
  ∧ parts (this w') = parts (this w)
  ∧ currentRotation (life (this w')) = currentRotation (life (this w)).
Proof.
  intros Hc. destruct w as [h [pr [e n r d] pt]].
  destruct c; try discriminate Hc; run_method; destruct d; cbn;
    repeat case_match; intros; cbn in *; simplify_eq; cbn; done.
Qed.

(** X6. What no call ever touches, in any world: the fields the constructor
    fixes (heights, limits, materials), the slots with the references to the
    parts, [currentRotation], and the child lists of the scene graph.  The
    calls that are not motion setters leave the scene nodes as they are
    altogether, and the motion setters leave energy, points and the dead
    mark. *)
Theorem calls_frame (w w' : World) (c : Call) :
  exec c w = Some w' →
  props (this w') = props (this w)
  ∧ parts (this w') = parts (this w)
  ∧ currentRotation (life (this w')) = currentRotation (life (this w))
  ∧ children <$> heap w' = children <$> heap w
  ∧ (motion_setter c = false → heap w' = heap w)
  ∧ (motion_setter c = true → life (this w') = life (this w)).
Proof.
  intros He. destruct (motion_setter c) eqn:Hc.
  - rewrite (setter_this c w w' Hc He).
    destruct (setter_keeps_shape c Hc) as (_ & _ & Hch).
    repeat split; try done. by apply keeps_field_exec with c.
  - destruct (life_call_frame c w w' Hc He) as (-> & -> & -> & ->).
    repeat split; done.
Qed.

Lemma calls_frame_witness :
  ∃ w', exec (SubstractEnergy 150) (built no_parameters) = Some w'
        ∧ heap w' = heap (built no_parameters)
        ∧ props (this w') = props (this (built no_parameters)).
Proof.
  destruct (call_total (SubstractEnergy 150) (built no_parameters)
              (reachable_inv _ (built_reachable _))) as [w' He].
  destruct (calls_frame _ _ _ He) as (Hp & _ & _ & _ & Hh & _).
  exists w'. split; [exact He|]. split; [by apply Hh|exact Hp].
Defined.

(** ** Life along a history *)

Lemma run_cons c cs w w' :
  run (c :: cs) w = Some w' ↔ ∃ w1, exec c w = Some w1 ∧ run cs w1 = Some w'.
Proof.
  cbn [run]. destruct (exec c w) as [w1|]; cbn.
  - split; [by exists w1|]. by intros (? & [= <-] & ?).
  - split; [done|]. by intros (? & ? & ?).
Qed.

Lemma run_reachable cs w w' :
  reachable w → run cs w = Some w' → reachable w'.
Proof.
  revert w. induction cs as [|c cs IH]; intros w Hr.
  - by intros [= <-].
  - intros (w1 & H1 & Hrest)%run_cons.
    apply (IH w1); [by apply reachable_call with c w|done].
Qed.

(** X7. In every world a program can reach, a dead figure has energy at
    most 0: the dead mark is only ever set by the damage that takes the
    energy there, and nothing changes afterwards. *)
Theorem dead_has_no_energy (w : World) :
  reachable w → dead w = true → energy w <= 0.
Proof.
  induction 1 as [parameters w H | c w w' Hr IH He].
  - rewrite new_Robot_built in H. apply (inj Some) in H. subst w.
    rewrite built_alive. intros Hd. discriminate Hd.
  - intros Hd'. destruct (dead w) eqn:Hd.
    + rewrite (dead_call c w Hd) in He. simplify_eq. by apply IH.
    + rewrite (call_dead c w w' He), Hd in Hd'.
      rewrite (call_energy c w w' He), Hd.
      destruct c; try discriminate Hd'. by apply Qleb_true.
Qed.

Lemma dead_has_no_energy_witness :
  ∃ w, run [AddPoints 5; SubstractEnergy 60; SubstractEnergy 70]
         (built no_parameters) = Some w
       ∧ dead w = true ∧ energy w <= 0.
Proof.
  destruct (run_energy_le [AddPoints 5; SubstractEnergy 60; SubstractEnergy 70]
              (built no_parameters) (built_reachable _)) as (w & Hw & _).
  { repeat constructor; cbn; lra. }
  { rewrite built_energy. lra. }
  assert (Hd : dead <$> run [AddPoints 5; SubstractEnergy 60; SubstractEnergy 70]
                          (built no_parameters) = Some true)
    by (vm_compute; reflexivity).
  rewrite Hw in Hd. apply (inj Some) in Hd.
  exists w. split; [exact Hw|]. split; [exact Hd|].
  exact (dead_has_no_energy w
           (run_reachable _ _ _ (built_reachable _) Hw) Hd).
Defined.

(** X8. Points never go down while the amounts are not negative: through
    any history that returns, in any world, the points at the end are at
    least the points at the start when no [addPoints] was given a negative
    amount, and they are the points at the start when the history has no
    [addPoints] at all. *)
Theorem points_never_drop (cs : list Call) (w w' : World) :
  run cs w = Some w' →
  (Forall points_nonneg cs → points w <= points w')
  ∧ (Forall (λ c, ∀ amount, c ≠ AddPoints amount) cs → points w' = points w).
Proof.
  revert w. induction cs as [|c cs IH]; intros w Hrun.
  - cbn in Hrun. apply (inj Some) in Hrun. subst w'.
    split; intros _; [lra|reflexivity].
  - apply run_cons in Hrun as (w1 & H1 & Hrest).
    destruct (IH w1 Hrest) as [IHle IHeq].
    pose proof (call_points c w w1 H1) as Hp. split.
    + intros [Hc Hcs]%Forall_cons. specialize (IHle Hcs).
      assert (H01 : points w <= points w1).
      { rewrite Hp. destruct c; cbn in Hc |- *; try lra.
        destruct (dead w); lra. }
      lra.
    + intros [Hc Hcs]%Forall_cons. rewrite (IHeq Hcs), Hp.
      destruct c; try reflexivity. by destruct (Hc points0).
Qed.

Lemma points_never_drop_witness :
  ∃ w, run [AddPoints 10; SetHeadRotation 5; SubstractEnergy 100; AddPoints 7]
         (built no_parameters) = Some w
       ∧ 0 <= points w.
Proof.
  destruct (run_points_nonneg
              [AddPoints 10; SetHeadRotation 5; SubstractEnergy 100; AddPoints 7]
              (built no_parameters) (built_reachable _)) as (w & Hw & _).
  { repeat constructor; cbn; lra. }
  { rewrite built_points. lra. }
  exists w. split; [exact Hw|].
  destruct (points_never_drop _ _ _ Hw) as [Hle _].
  rewrite built_points in Hle. apply Hle.
  repeat constructor; cbn; lra.
Defined.

(** X9. Damage kills exactly at the energy the figure has.  In any world,
    on a live figure [substractEnergy] returns, and the figure is dead
    afterwards exactly when the damage is at least the energy it had; a
    figure that stays alive keeps energy above 0, and a damage that is not
    negative does not raise the energy. *)
Theorem damage_kills_at_the_energy (w : World) (damage : Q) :
  dead w = false →
  ∃ w', exec (SubstractEnergy damage) w = Some w'
        ∧ (dead w' = true ↔ energy w <= damage)
        ∧ (dead w' = false → 0 < energy w')
        ∧ (0 <= damage → energy w' <= energy w).
Proof.
  intros Hd.
  destruct (substractEnergy_total damage w) as (w' & He & _).
  exists w'. split; [exact He|].
  rewrite (call_dead _ _ _ He), (call_energy _ _ _ He), Hd. cbn [orb].
  destruct (Qleb (energy w - damage) 0) eqn:Hle.
  - apply Qleb_true in Hle.
    split; [split; [intros _; lra|reflexivity]|].
    split; [intros Hf; discriminate Hf|intros; lra].
  - apply Qleb_false in Hle.
    split; [split; [intros Hf; discriminate Hf|intros; lra]|].
    split; intros; lra.
Qed.

Lemma damage_kills_at_the_energy_witness :
  ∃ w1 w2,
    exec (SubstractEnergy 99.5) (built no_parameters) = Some w1
    ∧ dead w1 = false
    ∧ exec (SubstractEnergy 0.5) w1 = Some w2
    ∧ dead w2 = true.
Proof.
  destruct (damage_kills_at_the_energy (built no_parameters) 99.5
              (built_alive _)) as (w1 & H1 & Hiff1 & _).
  rewrite built_energy in Hiff1.
  assert (Hd1 : dead w1 = false).
  { destruct (dead w1); [|reflexivity]. destruct Hiff1 as [Hiff1 _].
    specialize (Hiff1 eq_refl). lra. }
  destruct (damage_kills_at_the_energy w1 0.5 Hd1) as (w2 & H2 & Hiff2 & _).
  pose proof (call_energy _ _ _ H1) as He1.
  rewrite built_alive, built_energy in He1.
  exists w1, w2. split; [exact H1|]. split; [exact Hd1|]. split; [exact H2|].
  apply Hiff2. rewrite He1. lra.
Defined.

(** X10. A heal heals: on a live figure a program can reach, with energy at
    most 100, [addEnergy] of an amount that is not negative never lowers the
    energy and leaves it at most 100; it fills the energy to 100 when the
    amount is at least what is missing. *)
Theorem heal_restores (w : World) (amount : Q) :
  reachable w → dead w = false → energy w <= 100 → 0 <= amount →
  ∃ w', exec (AddEnergy amount) w = Some w'
        ∧ energy w <= energy w' ∧ energy w' <= 100
        ∧ (100 - energy w <= amount → energy w' == 100).
Proof.
  intros Hr Hd Hle Ha.
  destruct (call_total (AddEnergy amount) w (reachable_inv w Hr)) as [w' He].
  exists w'. split; [exact He|].
  rewrite (call_energy _ _ _ He), Hd, (reachable_max_energy w Hr).
  destruct (Qgtb _ _) eqn:Hgt.
  - apply Qgtb_true in Hgt. repeat split; try lra; intros; lra.
  - apply Qgtb_false in Hgt. repeat split; try lra; intros; lra.
Qed.

Lemma heal_restores_witness :
  ∃ w1 w2,
    exec (SubstractEnergy 30) (built no_parameters) = Some w1
    ∧ exec (AddEnergy 500) w1 = Some w2
    ∧ energy w2 == 100.
Proof.
  destruct (call_total (SubstractEnergy 30) (built no_parameters)
              (reachable_inv _ (built_reachable _))) as [w1 H1].
  pose proof (call_energy _ _ _ H1) as He1.
  pose proof (call_dead _ _ _ H1) as Hd1.
  rewrite built_alive, built_energy in He1, Hd1. cbn in Hd1.
  destruct (heal_restores w1 500) as (w2 & H2 & _ & _ & Hfull).
  - by apply reachable_call with (SubstractEnergy 30) (built no_parameters),
      H1; apply built_reachable.
  - exact Hd1.
  - rewrite He1. lra.
  - lra.
  - exists w1, w2. split; [exact H1|]. split; [exact H2|].
    apply Hfull. rewrite He1. lra.
Defined.

(** X11. The setters need the parts, and after construction they are there.
    Every history on a figure a program can reach returns and ends in such
    a figure again: no call throws.  On the fields without the parts, as
    they are at the top of the constructor, each motion setter throws. *)
Theorem no_call_throws (w : World) (cs : list Call) :
  reachable w →
  (∃ w', run cs w = Some w' ∧ reachable w')
  ∧ ∀ parameters v,
      exec (SetHeadRotation v) (unassembled parameters) = None
      ∧ exec (SetBodyRotation v) (unassembled parameters) = None
      ∧ exec (SetLegsScale v) (unassembled parameters) = None.
Proof.
  intros Hr. split; [|by intros parameters v].
  revert w Hr. induction cs as [|c cs IH]; intros w Hr.
  - by exists w.
  - destruct (call_total c w (reachable_inv w Hr)) as [w1 H1].
    destruct (IH w1) as (w' & Hrun & Hr'); [by apply reachable_call with c w|].
    exists w'. split; [|exact Hr']. apply run_cons. by exists w1.
Qed.

Lemma no_call_throws_witness :
  is_Some (run [SetLegsScale 7; SubstractEnergy 100; SetHeadRotation 1;
                AddEnergy 3] (built no_parameters)).
Proof.
  destruct (no_call_throws (built no_parameters)
              [SetLegsScale 7; SubstractEnergy 100; SetHeadRotation 1;
               AddEnergy 3] (built_reachable _)) as [(w' & Hrun & _) _].
  by exists w'.
Defined.

(** ** The two sides of the figure *)

(** X12. The figure is and stays symmetric.  In every world a program can
    reach the two femurs are equal in every component; the two shoulders
    have the same position, geometry, material, rotation, scale and shadow
    flag (they differ in their children only); and the two feet are mirror
    images, with opposite X positions and everything else but their
    children equal. *)
Theorem sides_stay_symmetric (w : World) :
  reachable w →
  part rightFemur w = part leftFemur w
  ∧ position <$> part rightShoulder w = position <$> part leftShoulder w
  ∧ (λ o, (kind o, rotation o, scale o, castShadow o)) <$> part rightShoulder w
    = (λ o, (kind o, rotation o, scale o, castShadow o)) <$> part leftShoulder w
  ∧ ∃ fr fl,
      part rightFoot w = Some fr ∧ part leftFoot w = Some fl
      ∧ x (position fr) == - x (position fl)
      ∧ y (position fr) = y (position fl)
      ∧ z (position fr) = z (position fl)
      ∧ (kind fr, rotation fr, scale fr, castShadow fr)
        = (kind fl, rotation fl, scale fl, castShadow fl).
Proof.
  induction 1 as [parameters w H | c w w' Hr IH He].
  - rewrite new_Robot_built in H. apply (inj Some) in H. subst w.
    build. repeat split. eexists _, _. repeat split. ring.
  - pose proof (reachable_inv w Hr) as Hinv. open_world w Hinv.
    unfold part in IH. cbn in IH.
    destruct IH as (Hfemur & Hspos & Hsrest & fr & fl & Hfr & Hfl & Hfeet).
    apply (inj Some) in Hfemur, Hspos, Hsrest, Hfr, Hfl. subst o3 fr fl.
    injection Hsrest as Hk Hrot Hsc Hcs.
    revert He. destruct lf as [e n r [|]]; destruct c; run_method;
      try destruct (Qleb _ _); cbn; intros He; apply (inj Some) in He;
      subst w'; unfold part; cbn;
      (split; [done|]); (split; [congruence|]); (split; [congruence|]);
      eexists _, _; (split; [done|]); (split; [done|]); exact Hfeet.
Qed.

Lemma sides_stay_symmetric_witness :
  ∃ w, run [SetLegsScale 1.15; SetHeadRotation (-20)] (built no_parameters)
       = Some w
       ∧ part rightFemur w = part leftFemur w.
Proof.
  assert (H : is_Some (run [SetLegsScale 1.15; SetHeadRotation (-20)]
                         (built no_parameters))) by (vm_compute; by eexists).
  destruct H as [w Hw]. exists w. split; [exact Hw|].
  apply sides_stay_symmetric.
  exact (run_reachable _ _ _ (built_reachable _) Hw).
Defined.

(** ** The factories *)

(** X13. A factory looks at the sign of [side] only: two sides that are
    both negative, or both not, give the same foot, the same femur and the
    same shoulder, in any world.  So [createFoot(0)] and [createFoot(5)]
    build the left foot [createFoot(1)] builds. *)
Theorem factories_read_the_sign (s1 s2 : Q) (w : World) :
  Qgeb s1 0 = Qgeb s2 0 →
  createFoot s1 w = createFoot s2 w
  ∧ createFemur s1 w = createFemur s2 w
  ∧ createShoulder s1 w = createShoulder s2 w.
Proof.
  intros Hs. unfold createFoot, createFemur, createShoulder.
  rewrite Hs. repeat split; reflexivity.
Qed.

Lemma factories_read_the_sign_witness :
  createFoot 0 (unassembled no_parameters)
  = createFoot 5 (unassembled no_parameters).
Proof.
  exact (proj1 (factories_read_the_sign 0 5 (unassembled no_parameters)
                  eq_refl)).
Defined.

(** X14. What the factories allocate, in any world.  Each returns the first
    node it allocates, appends its nodes to the heap without touching the
    ones there, and links the new nodes among themselves only: [createEye]
    and [createFemur] one node, [createHead] two, [createBody] three,
    [createShoulder] one on the right and four on the left, [createFoot]
    three on the right and six on the left.  None touches the fixed fields
    or the life fields, and [createEye] no field of the figure at all. *)
Theorem factories_allocate (side : Q) (w : World) :
  (allocates 1 createEye w ∧ keeps_this createEye)
  ∧ allocates 2 createHead w
  ∧ allocates 3 createBody w
  ∧ allocates 1 (createFemur side) w
  ∧ allocates (if Qgeb side 0 then 4 else 1) (createShoulder side) w
  ∧ allocates (if Qgeb side 0 then 6 else 3) (createFoot side) w.
Proof.
  unfold allocates. destruct w as [h t].
  assert (Hk : keeps_this createEye).
  { intros [h0 t0] a w'. rewrite <- (app_nil_r h0).
    run_factory. by intros [= _ <-]. }
  cbn [heap this].
  repeat split; try exact Hk.
  all: rewrite <- (app_nil_r h).
  all: destruct (Qgeb side 0) eqn:Hside.
  all: run_factory; rewrite ?Hside; run_factory.
  all: rewrite ?app_nil_r, ?Nat.add_0_r.
  all: eexists _, _; (split; [reflexivity|]).
  all: (split; [reflexivity|]); (split; [reflexivity|]); (split; [|done]).
  all: cbn [heap]; rewrite length_app; unfold children_within; cbn.
  all: repeat constructor; lia.
Qed.

(** ** The scene graph *)

(** X15. The scene graph is a tree and stays one.  In every world a program
    can reach, the parent-to-child links (those of the figure itself and
    those of every node) name every scene node exactly once, so that each
    node has one parent and none is shared; and every child was allocated
    after its parent, so that no chain of links comes back to its start. *)
Theorem scene_graph_is_a_tree (w : World) :
  reachable w →
  NoDup (links w)
  ∧ (∀ r, r ∈ links w ↔ (r < length (heap w))%nat)
  ∧ (∀ r o c, node r w = Some o → c ∈ children o → (r < c)%nat).
Proof.
  intros (_ & Hparts & Hchildren)%reachable_inv.
  assert (Hlinks : links w = [0; 3; 9; 10; 11; 1; 2; 4; 5; 6; 7; 8]%nat)
    by (unfold links; by rewrite Hparts, Hchildren).
  assert (Hlen : length (heap w) = 12%nat)
    by (by rewrite <- (length_fmap children), Hchildren).
  rewrite Hlinks, Hlen. split; [|split].
  - repeat (apply NoDup_cons;
            split; [rewrite ?elem_of_cons, elem_of_nil; lia|]).
    apply NoDup_nil_2.
  - intros r. rewrite !elem_of_cons, elem_of_nil. lia.
  - intros r o c Hnode Hc.
    assert (Hr : built_children !! r = Some (children o)).
    { rewrite <- Hchildren, list_lookup_fmap. unfold node, ref in *.
      by rewrite Hnode. }
    do 12 (destruct r as [|r];
           [cbn in Hr; apply (inj Some) in Hr; rewrite <- Hr in Hc;
            rewrite ?elem_of_cons, elem_of_nil in Hc; lia|]).
    discriminate Hr.
Qed.

Lemma scene_graph_is_a_tree_witness :
  NoDup (links (built no_parameters))
  ∧ parents 6%nat (built no_parameters) = [5%nat].
Proof.
  split; [|reflexivity].
  apply (scene_graph_is_a_tree (built no_parameters)), built_reachable.
Defined.

(** ** The guards and the life fields on doubles *)

Lemma SFcompare_swap (a b : spec_float) :
  SFcompare b a = CompOpp <$> SFcompare a b.
Proof.
  destruct a as [sa|sa| |sa ma ea], b as [sb|sb| |sb mb eb]; cbn;
    try reflexivity; try (by destruct sa); try (by destruct sb);
    try (by destruct sa, sb).
  destruct sa, sb; cbn; try reflexivity;
    rewrite (Z.compare_antisym ea eb);
    destruct (ea ?= eb)%Z; cbn; try reflexivity;
    by rewrite (Pos.compare_cont_antisym ma mb Eq).
Qed.

Lemma SFcompare_refl (a : spec_float) :
  a ≠ S754_nan → SFcompare a a = Some Eq.
Proof.
  destruct a as [sa|sa| |sa ma ea]; cbn; try done; try (by destruct sa).
  intros _. destruct sa; by rewrite Z.compare_refl, Pos.compare_cont_refl.
Qed.

Lemma is_nan_true (v : float) :
  PrimFloat.is_nan v = true ↔ Prim2SF v = S754_nan.
Proof.
  unfold PrimFloat.is_nan. rewrite FloatAxioms.eqb_spec. unfold SFeqb.
  destruct (Prim2SF v) as [s|s| |s m e] eqn:Hv; [| |done|];
    (rewrite SFcompare_refl by done); by cbn.
Qed.

Lemma is_nan_false (v : float) :
  PrimFloat.is_nan v = false ↔ Prim2SF v ≠ S754_nan.
Proof. rewrite <- is_nan_true. by destruct (PrimFloat.is_nan v). Qed.

Lemma ltb_nan (a b : float) :
  PrimFloat.is_nan a = true ∨ PrimFloat.is_nan b = true →
  (a <? b)%float = false ∧ (a <=? b)%float = false.
Proof.
  rewrite ltb_spec, leb_spec, !is_nan_true. unfold SFltb, SFleb.
  intros [-> | ->]; [done|]. by destruct (Prim2SF a).
Qed.

Lemma leb_not_nan (a b : float) :
  (a <=? b)%float = true →
  PrimFloat.is_nan a = false ∧ PrimFloat.is_nan b = false.
Proof.
  intros H. split.
  - destruct (PrimFloat.is_nan a) eqn:E; [|done].
    destruct (ltb_nan a b (or_introl E)). congruence.
  - destruct (PrimFloat.is_nan b) eqn:E; [|done].
    destruct (ltb_nan a b (or_intror E)). congruence.
Qed.

Lemma leb_refl (a : float) :
  PrimFloat.is_nan a = false → (a <=? a)%float = true.
Proof.
  rewrite is_nan_false, leb_spec. unfold SFleb. intros Ha.
  by rewrite (SFcompare_refl _ Ha).
Qed.

Lemma not_ltb_leb (a b : float) :
  PrimFloat.is_nan a = false → PrimFloat.is_nan b = false →
  (a <? b)%float = false → (b <=? a)%float = true.
Proof.
  rewrite !is_nan_false, ltb_spec, leb_spec. unfold SFltb, SFleb.
  intros Ha Hb. rewrite (SFcompare_swap (Prim2SF a) (Prim2SF b)).
  destruct (SFcompare _ _) as [[]|] eqn:Ec; cbn; try done.
  intros _. exfalso.
  destruct (Prim2SF a) as [sa|sa| |sa ma ea], (Prim2SF b) as [sb|sb| |sb mb eb];
    try done; by cbn in Ec; repeat case_match.
Qed.

(** X16. The guard on doubles.  When MIN <= MAX, the guard of the setters
    takes every double that is not NaN, the infinities included, into the
    interval, and leaves an input inside the interval as it is; a NaN goes
    through unchanged, whatever the bounds. *)
Theorem binary64_limit (MAX MIN v : float) :
  ((MIN <=? MAX)%float = true → PrimFloat.is_nan v = false →
   (MIN <=? Binary64.limit MAX MIN v)%float = true
   ∧ (Binary64.limit MAX MIN v <=? MAX)%float = true
   ∧ ((MAX <? v)%float = false → (v <? MIN)%float = false →
      Binary64.limit MAX MIN v = v))
  ∧ (PrimFloat.is_nan v = true → Binary64.limit MAX MIN v = v).
Proof.
  unfold Binary64.limit. split.
  - intros Hle Hv. destruct (leb_not_nan _ _ Hle) as [Hmin Hmax].
    destruct (MAX <? v)%float eqn:Hgt.
    + split; [exact Hle|]. split; [by apply leb_refl|done].
    + destruct (v <? MIN)%float eqn:Hlt.
      * split; [by apply leb_refl|]. split; [exact Hle|done].
      * split; [by apply not_ltb_leb|]. split; [by apply not_ltb_leb|done].
  - intros Hv.
    destruct (ltb_nan MAX v (or_intror Hv)) as [-> _].
    by destruct (ltb_nan v MIN (or_introl Hv)) as [-> _].
Qed.

Lemma binary64_limit_witness :
  (-80 <=? Binary64.limit 80 (-80) infinity)%float = true
  ∧ (Binary64.limit 80 (-80) infinity <=? 80)%float = true
  ∧ Binary64.limit 80 (-80) nan = nan.
Proof.
  destruct (binary64_limit 80 (-80) infinity) as [H _].
  destruct (H eq_refl eq_refl) as (Hlo & Hhi & _).
  destruct (binary64_limit 80 (-80) nan) as [_ Hnan].
  split; [exact Hlo|]. split; [exact Hhi|]. exact (Hnan eq_refl).
Defined.

Lemma sub_nan (a b : float) :
  PrimFloat.is_nan a = true ∨ PrimFloat.is_nan b = true →
  PrimFloat.is_nan (a - b) = true.
Proof.
  rewrite !is_nan_true, sub_spec.
  intros [-> | ->]; [done|]. by destruct (Prim2SF a).
Qed.

Lemma add_nan (a b : float) :
  PrimFloat.is_nan a = true ∨ PrimFloat.is_nan b = true →
  PrimFloat.is_nan (a + b) = true.
Proof.
  rewrite !is_nan_true, add_spec.
  intros [-> | ->]; [done|]. by destruct (Prim2SF a).
Qed.

(** X17. A NaN makes the figure immortal, on doubles.  [substractEnergy]
    with a NaN damage leaves a live figure alive with NaN energy; and once
    the energy of a live figure is NaN, every [substractEnergy] and every
    [addEnergy], whatever the amount, leaves it alive with NaN energy. *)
Theorem binary64_nan_energy (s : float * bool) (amount : float) :
  (snd s = false → PrimFloat.is_nan amount = true →
   nan_alive (Binary64.substractEnergy amount s))
  ∧ (nan_alive s →
     nan_alive (Binary64.substractEnergy amount s)
     ∧ nan_alive (Binary64.addEnergy amount s)).
Proof.
  destruct s as [e d]. unfold nan_alive. cbn [fst snd]. split.
  - intros -> Ha. cbn.
    pose proof (sub_nan e amount (or_intror Ha)) as Hn.
    destruct (ltb_nan (e - amount) 0 (or_introl Hn)) as [_ ->]. by cbn.
  - intros [He ->]. cbn. split.
    + pose proof (sub_nan e amount (or_introl He)) as Hn.
      destruct (ltb_nan (e - amount) 0 (or_introl Hn)) as [_ ->]. by cbn.
    + pose proof (add_nan e amount (or_introl He)) as Hn.
      destruct (ltb_nan 100 (e + amount) (or_intror Hn)) as [-> _]. by cbn.
Qed.

Lemma binary64_nan_energy_witness :
  nan_alive (Binary64.substractEnergy nan (100, false)%float)
  ∧ nan_alive (Binary64.substractEnergy 1000
                 (Binary64.substractEnergy nan (100, false)%float)).
Proof.
  destruct (binary64_nan_energy (100, false)%float nan) as [H _].
  pose proof (H eq_refl eq_refl) as Hn. split; [exact Hn|].
  by destruct (binary64_nan_energy
                 (Binary64.substractEnergy nan (100, false)%float) 1000)
    as [_ [? _]].
Defined.

(** ** The scene *)

Lemma new_TheScene_inv window renderer :
  ∃ s0, TheScene.new_TheScene window renderer = Some s0
        ∧ TheScene.scene_inv s0
        ∧ TheScene.difficulty (TheScene.this s0) = 1
        ∧ TheScene.own (TheScene.this s0) = [0; 1; 2; 3; 4]%nat
        ∧ TheScene.children <$> TheScene.nodes s0
          = [[]; []; []; []; [5; 6; 7]; []; []; []]%nat
        ∧ TheScene.visible <$> TheScene.at_field TheScene.axis s0 = Some true
        ∧ TheScene.at_field TheScene.camera s0 ≫= TheScene.aspect
          = Some (TheScene.innerWidth window / TheScene.innerHeight window).
Proof.
  cbv -[Qmult Qplus Qminus Qdiv Qopp Qinv Qeq Qle Qlt
        TheScene.innerWidth TheScene.innerHeight].
  eexists. split; [reflexivity|]. repeat split. by eexists.
Qed.

(** A call on a scene that satisfies the invariant: it returns, keeps the
    invariant and all fields, and writes the visibility of the axes or the
    aspect ratio of the camera only. *)
Lemma scene_call c s :
  TheScene.scene_inv s →
  ∃ s' v a,
    snd <$> TheScene.call c s = Some s'
    ∧ TheScene.scene_inv s'
    ∧ TheScene.this s' = TheScene.this s
    ∧ TheScene.children <$> TheScene.nodes s'
      = TheScene.children <$> TheScene.nodes s
    ∧ TheScene.position <$> TheScene.nodes s'
      = TheScene.position <$> TheScene.nodes s
    ∧ TheScene.visible <$> TheScene.at_field TheScene.axis s = Some v
    ∧ TheScene.at_field TheScene.camera s ≫= TheScene.aspect = Some a
    ∧ TheScene.visible <$> TheScene.at_field TheScene.axis s'
      = Some (TheScene.last_axis [c] v)
    ∧ TheScene.at_field TheScene.camera s' ≫= TheScene.aspect
      = Some (TheScene.last_aspect [c] a).
Proof.
  destruct s as [ns [d al sl cam tc pf ax md gf sk ow]].
  unfold TheScene.scene_inv, TheScene.at_field.
  cbn [TheScene.this TheScene.nodes TheScene.camera TheScene.axis].
  intros (-> & -> & Hlen & Hasp).
  do 8 (destruct ns as [|? ns]; [discriminate Hlen|]).
  destruct ns; [|discriminate Hlen]. cbn in Hasp |- *.
  destruct Hasp as [a Ha]. unfold TheScene.aspect in Ha |- *.
  destruct n1 as [[] ? ? ? ? ?]; try discriminate Ha.
  destruct c; cbn;
    unfold TheScene.animate, TheScene.setCameraAspect, TheScene.setDifficulty,
      TheScene.movePlatform, TheScene.field, TheScene.update,
      mbind, TheScene.Method_bind, mret, TheScene.Method_ret;
    cbn; eexists _, _, _; repeat split; try done; by eexists.
Qed.

Lemma scene_run cs s :
  TheScene.scene_inv s →
  ∃ s' v a,
    TheScene.run cs s = Some s'
    ∧ TheScene.scene_inv s'
    ∧ TheScene.this s' = TheScene.this s
    ∧ TheScene.children <$> TheScene.nodes s'
      = TheScene.children <$> TheScene.nodes s
    ∧ TheScene.position <$> TheScene.nodes s'
      = TheScene.position <$> TheScene.nodes s
    ∧ TheScene.visible <$> TheScene.at_field TheScene.axis s = Some v
    ∧ TheScene.at_field TheScene.camera s ≫= TheScene.aspect = Some a
    ∧ TheScene.visible <$> TheScene.at_field TheScene.axis s'
      = Some (TheScene.last_axis cs v)
    ∧ TheScene.at_field TheScene.camera s' ≫= TheScene.aspect
      = Some (TheScene.last_aspect cs a).
Proof.
  revert s. induction cs as [|c cs IH]; intros s Hinv.
  - destruct (scene_call (TheScene.SetDifficulty 0) s Hinv)
      as (_ & v & a & _ & _ & _ & _ & _ & Hv & Ha & _).
    exists s, v, a. split; [done|]. split; [exact Hinv|]. by repeat split.
  - destruct (scene_call c s Hinv)
      as (s1 & v & a & H1 & Hinv1 & Ht1 & Hc1 & Hp1 & Hv & Ha & Hv1 & Ha1).
    destruct (IH s1 Hinv1)
      as (s' & v1 & a1 & Hrun & Hinv' & Ht' & Hc' & Hp' & Hv1' & Ha1' & Hv' & Ha').
    rewrite Hv1 in Hv1'. rewrite Ha1 in Ha1'.
    apply (inj Some) in Hv1', Ha1'. subst v1 a1.
    exists s', v, a. cbn [TheScene.run]. rewrite H1. cbn.
    split; [exact Hrun|]. split; [exact Hinv'|].
    split; [congruence|]. split; [congruence|]. split; [congruence|].
    split; [exact Hv|]. split; [exact Ha|].
    split; [rewrite Hv'|rewrite Ha']; by destruct c.
Qed.

(** X18. The difficulty of the scene is never set.  A new scene has
    difficulty 1, and after any calls of [animate], [setCameraAspect],
    [movePlatform] and [setDifficulty], which all return, it still has, with
    all its fields, the children of every node and every position as the
    constructor left them.  [setDifficulty] and [movePlatform] return the
    state they get, and [animate] does not read the difficulty of the GUI. *)
Theorem scene_difficulty_is_never_set
    (window : TheScene.Window) (renderer : nat) (cs : list TheScene.Call) :
  (∃ s0 s,
     TheScene.new_TheScene window renderer = Some s0
     ∧ TheScene.run cs s0 = Some s
     ∧ TheScene.difficulty (TheScene.this s) = 1
     ∧ TheScene.this s = TheScene.this s0
     ∧ TheScene.own (TheScene.this s) = [0; 1; 2; 3; 4]%nat
     ∧ TheScene.children <$> TheScene.nodes s
       = [[]; []; []; []; [5; 6; 7]; []; []; []]%nat
     ∧ TheScene.position <$> TheScene.nodes s
       = TheScene.position <$> TheScene.nodes s0)
  ∧ (∀ s level action,
       TheScene.setDifficulty level s = Some (tt, s)
       ∧ TheScene.movePlatform action s = Some (tt, s))
  ∧ (∀ s c1 c2,
       TheScene.gui_axis c1 = TheScene.gui_axis c2 →
       TheScene.animate c1 s = TheScene.animate c2 s).
Proof.
  split; [|split].
  - destruct (new_TheScene_inv window renderer)
      as (s0 & H0 & Hinv & Hd & Hown & Hch & _).
    destruct (scene_run cs s0 Hinv)
      as (s & v & a & Hrun & _ & Ht & Hc & Hp & _).
    exists s0, s. rewrite Ht, Hc.
    split; [exact H0|]. split; [exact Hrun|]. repeat split; assumption.
  - by intros s level action.
  - intros s c1 c2 Hax. unfold TheScene.animate. by rewrite Hax.
Qed.

(** X19. The last write decides.  After any calls on a new scene, the axes
    are visible exactly if the last [animate] said so (and visible if there
    was none), and [getCamera] returns the camera the constructor made; in
    a window whose height is not zero, the aspect ratio of the camera is
    the one of the last [setCameraAspect] (and the ratio of the window if
    there was none). *)
Theorem scene_last_write_decides
    (window : TheScene.Window) (renderer : nat) (cs : list TheScene.Call) :
  ∃ s0 s,
    TheScene.new_TheScene window renderer = Some s0
    ∧ TheScene.run cs s0 = Some s
    ∧ TheScene.visible <$> TheScene.at_field TheScene.axis s
      = Some (TheScene.last_axis cs true)
    ∧ (¬ TheScene.innerHeight window == 0 →
       TheScene.at_field TheScene.camera s ≫= TheScene.aspect
       = Some (TheScene.last_aspect cs
                 (TheScene.innerWidth window / TheScene.innerHeight window)))
    ∧ fst <$> TheScene.getCamera s = Some 2%nat
    ∧ fst <$> TheScene.getCamera s0 = Some 2%nat.
Proof.
  destruct (new_TheScene_inv window renderer)
    as (s0 & H0 & Hinv & _ & _ & _ & Hv0 & Ha0).
  destruct (scene_run cs s0 Hinv)
    as (s & v & a & Hrun & (Hcam & _) & Ht & _ & _ & Hv & Ha & Hv' & Ha').
  rewrite Hv0 in Hv. rewrite Ha0 in Ha.
  apply (inj Some) in Hv, Ha. subst v a.
  exists s0, s. split; [exact H0|]. split; [exact Hrun|].
  split; [exact Hv'|]. split; [intros _; exact Ha'|].
  unfold TheScene.getCamera, TheScene.field. rewrite <- Ht, Hcam.
  split; reflexivity.
Qed.

Lemma scene_last_write_decides_witness :
  let window := {| TheScene.innerWidth := 800; TheScene.innerHeight := 600 |} in
  let shown := {| TheScene.gui_axis := false; TheScene.gui_difficulty := 1 |} in
  ∃ s0 s,
    TheScene.new_TheScene window 0 = Some s0
    ∧ TheScene.run [TheScene.Animate shown; TheScene.SetCameraAspect 2;
                    TheScene.MovePlatform 1] s0 = Some s
    ∧ TheScene.visible <$> TheScene.at_field TheScene.axis s = Some false
    ∧ TheScene.at_field TheScene.camera s ≫= TheScene.aspect = Some 2.
Proof.
  intros window shown.
  destruct (scene_last_write_decides window 0
              [TheScene.Animate shown; TheScene.SetCameraAspect 2;
               TheScene.MovePlatform 1])
    as (s0 & s & H0 & Hrun & Hv & Ha & _).
  exists s0, s. split; [exact H0|]. split; [exact Hrun|].
  split; [exact Hv|]. apply Ha. intros Hz. discriminate Hz.
Defined.

(** ** The joints a call writes *)

(** X20. A call writes the joints it names and no other node.  In every
    world a program can reach, [setHeadRotation] leaves every node but the
    head as it is, [setBodyRotation] every node but the body, [setLegsScale]
    every node but the two femurs and the two shoulders, and the other calls
    every node: feet, eye, light, target and camera are never written. *)
Theorem calls_write_their_joints (w w' : World) (c : Call) (r : ref) :
  reachable w → exec c w = Some w' →
  Some r ∉ written c (parts (this w)) →
  node r w' = node r w.
Proof.
  intros Hinv%reachable_inv He Hr. open_world w Hinv.
  unfold written, node in *. cbn in Hr. revert He.
  destruct lf as [e n k [|]]; destruct c; run_method;
    try destruct (Qleb _ _); cbn; intros He; apply (inj Some) in He;
    subst w'; cbn; try reflexivity;
    rewrite ?elem_of_cons, elem_of_nil in Hr;
    do 12 (destruct r as [|r]; [first [reflexivity | exfalso; tauto]|]);
    reflexivity.
Qed.

Lemma calls_write_their_joints_witness :
  ∃ w', exec (SetLegsScale 1.2) (built no_parameters) = Some w'
        ∧ node 11%nat w' = node 11%nat (built no_parameters)
        ∧ node 3%nat w' = node 3%nat (built no_parameters).
Proof.
  destruct (call_total (SetLegsScale 1.2) (built no_parameters)
              (reachable_inv _ (built_reachable _))) as [w' He].
  assert (Hp : parts (this (built no_parameters)) = built_parts)
    by apply (reachable_inv _ (built_reachable _)).
  assert (Hn : ∀ r : ref, r = 11%nat ∨ r = 3%nat →
            Some r ∉ written (SetLegsScale 1.2)
                       (parts (this (built no_parameters)))).
  { intros r Hr. rewrite Hp. unfold written, built_parts.
    cbn [rightFemur leftFemur rightShoulder leftShoulder].
    rewrite ?elem_of_cons, elem_of_nil.
    intros H'. decompose [or] H'; try contradiction;
      match goal with E : Some _ = Some _ |- _ => apply (inj Some) in E end;
      lia. }
  exists w'. split; [exact He|].
  split.
  - exact (calls_write_their_joints (built no_parameters) w'
             (SetLegsScale 1.2) 11%nat (built_reachable _) He
             (Hn 11%nat (or_introl eq_refl))).
  - exact (calls_write_their_joints (built no_parameters) w'
             (SetLegsScale 1.2) 3%nat (built_reachable _) He
             (Hn 3%nat (or_intror eq_refl))).
Defined.
